(** * YoutubeTranscriberGUI: the segmentation and transcription pipeline

    A shallow embedding of [youtube_transcriber.py] (the command-line tool)
    and [youtube_transcriber_gui.py] (the desktop wrapper):

    - [PyFloat]: Python's [float] as IEEE-754 binary64, through the
      specification of the Standard Library ([SpecFloat], precision 53,
      [emax] 1024), with the mixed int/float operations the splitter uses;
    - [Bounds]: the arithmetic that cuts an over-long segment by time;
    - [split_audio_intelligently], over audio segments seen as lists of
      one-millisecond frames (pydub measures and slices in ms), with
      pydub's [split_on_silence] and the success of each [export] as
      parameters;
    - [transcribe_chunk_whisper], [transcribe_chunk_google] and the two
      loops around them ([main] and [run_transcription_process]): each
      returns its result with the events it causes, in order (the calls
      made to the speech libraries and the lines logged); the libraries
      are oracles of the environment;
    - [download_audio], over the outcome of [yt-dlp] and the file system;
    - the text widget of the desktop program as the sequence of the
      operations queued on it, with [save_transcript] and the checks of
      [start_transcription_thread].

    The properties follow the definitions: strings, the loops, floats
    (rounding in the normal range, then the error of the two roundings
    of a cut), and the splitter; then further properties of the
    splitter, of the two loops, of the download and of the saved file. *)

From Stdlib Require Import ZArith List Lia Bool Arith String Ascii DecimalString.
From Stdlib Require Import DecimalNat.
From Stdlib Require Import QArith Qround Qpower Lqa.
From Stdlib Require Import Floats.SpecFloat.
Import ListNotations.

Local Open Scope Z_scope.

(** ** A small error monad: [None] is a raised Python exception *)

Definition bind {A B : Type} (m : option A) (f : A -> option B) : option B :=
  match m with
  | Some a => f a
  | None => None
  end.

Notation "x <- m ;; k" := (bind m (fun x => k))
  (at level 61, m at next level, right associativity).

Fixpoint mapM {A B : Type} (f : A -> option B) (l : list A) : option (list B) :=
  match l with
  | [] => Some []
  | a :: l' => b <- f a ;; bs <- mapM f l' ;; Some (b :: bs)
  end.

(** [range(n)]: 0, 1, ..., n-1; empty when [n <= 0]. *)
Definition range (n : Z) : list Z := map Z.of_nat (seq 0 (Z.to_nat n)).

(** ** Python floats *)

Module PyFloat.

Definition prec : Z := 53.
Definition emax : Z := 1024.

Definition float := spec_float.

(** [float(z)], the conversion Python applies to the int operand of a
    mixed operation. It is exact below 2^53 in absolute value, which
    covers every length in milliseconds. *)
Definition of_int (z : Z) : float := binary_normalize prec emax z 0 false.

(** [a / b] on ints: true division, the quotient rounded to nearest,
    [ZeroDivisionError] on [b = 0]. For operands below 2^53, which
    convert exactly, it is the float division of the conversions. *)
Definition truediv (a b : Z) : option float :=
  if b =? 0 then None else Some (SFdiv prec emax (of_int a) (of_int b)).

(** [j * x] with [j] an int and [x] a float. *)
Definition mul_int (j : Z) (x : float) : float :=
  SFmul prec emax (of_int j) x.

(** [int(x)]: truncation toward zero; raises on infinities and NaN. *)
Definition to_int (x : float) : option Z :=
  match x with
  | S754_zero _ => Some 0
  | S754_finite s m e =>
      Some (cond_Zopp s (if 0 <=? e then Z.pos m * 2 ^ e
                         else Z.pos m / 2 ^ (- e)))
  | S754_infinity _ | S754_nan => None
  end.

(** [z < x] for an int [z] and a float [x]: Python compares the two
    exactly, without converting [z]. *)
Definition int_lt (z : Z) (x : float) : bool :=
  match x with
  | S754_nan => false
  | S754_infinity s => negb s
  | S754_zero _ => z <? 0
  | S754_finite s m e =>
      if 0 <=? e then z <? cond_Zopp s (Z.pos m) * 2 ^ e
      else z * 2 ^ (- e) <? cond_Zopp s (Z.pos m)
  end.

(** A Python number that is either an int or a float. *)
Inductive number :=
| NInt (z : Z)
| NFloat (x : float).

(** [min(x, z)]: the first argument unless the second is smaller. *)
Definition min_float_int (x : float) (z : Z) : number :=
  if int_lt z x then NInt z else NFloat x.

Definition int_of_number (v : number) : option Z :=
  match v with
  | NInt z => Some z
  | NFloat x => to_int x
  end.

End PyFloat.

(** ** The time split of an over-long segment, on lengths *)

Module Bounds.
Import PyFloat.

(** [(len(chunk) + chunk_length_limit_ms - 1) // chunk_length_limit_ms] *)
Definition num_sub_chunks (L limit : Z) : option Z :=
  if limit =? 0 then None else Some ((L + limit - 1) / limit).

(** [sub_chunk_len = len(chunk) / num_sub_chunks] *)
Definition sub_chunk_len (L n : Z) : option float := truediv L n.

(** [start_ms = int(j * sub_chunk_len)] *)
Definition start_ms (s : float) (j : Z) : option Z :=
  to_int (mul_int j s).

(** [end_ms = int(min((j + 1) * sub_chunk_len, len(chunk)))] *)
Definition end_ms (s : float) (L j : Z) : option Z :=
  int_of_number (min_float_int (mul_int (j + 1) s) L).

Definition bound (s : float) (L j : Z) : option (Z * Z) :=
  a <- start_ms s j ;; b <- end_ms s L j ;; Some (a, b).

(** The boundaries computed for [j] in [range(num_sub_chunks)]. *)
Definition all_bounds (L limit : Z) : option (list (Z * Z)) :=
  n <- num_sub_chunks L limit ;;
  s <- sub_chunk_len L n ;;
  mapM (bound s L) (range n).

(** [if start_ms >= end_ms: continue] *)
Definition nonempty (ab : Z * Z) : bool := fst ab <? snd ab.

(** The boundaries of the sub-chunks that are sliced and exported. *)
Definition sub_chunk_bounds (L limit : Z) : option (list (Z * Z)) :=
  option_map (filter nonempty) (all_bounds L limit).

Definition duration (ab : Z * Z) : Z := snd ab - fst ab.

Definition total_duration (l : list (Z * Z)) : Z :=
  fold_right Z.add 0 (map duration l).

End Bounds.

Import Bounds.

(** ** [split_audio_intelligently] *)

(** The file name of an exported chunk, [f"chunk_{total_chunks}.wav"]
    (the temporary directory it is joined to is the same for all). *)
Definition chunk_filename (k : nat) : string :=
  ("chunk_" ++ NilZero.string_of_uint (Nat.to_uint k) ++ ".wav")%string.

Section Splitter.

(** One millisecond of decoded audio. *)
Variable sample : Type.

(** A pydub [AudioSegment]: [len] is its length in milliseconds and
    [chunk[start_ms:end_ms]] the milliseconds from [start_ms] up to
    [end_ms], cut at the end of the segment. *)
Definition AudioSegment := list sample.

Definition len (a : AudioSegment) : Z := Z.of_nat (List.length a).

Definition slice (a : AudioSegment) (start_ms end_ms : Z) : AudioSegment :=
  firstn (Z.to_nat end_ms - Z.to_nat start_ms) (skipn (Z.to_nat start_ms) a).

(** [pydub.silence.split_on_silence(audio, min_silence_len,
    silence_thresh, keep_silence)], a library function. *)
Variable split_on_silence : AudioSegment -> Z -> Z -> Z -> list AudioSegment.

(** Whether the k-th call of [AudioSegment.export] (counted from 0 over
    the whole run) writes its file, or raises. *)
Variable export_ok : nat -> bool.

(** The segmentation step: [split_on_silence], and the whole audio as
    the single chunk when that list is empty ([if not chunks]). *)
Definition segments (audio : AudioSegment)
    (min_silence_len silence_thresh : Z) : list AudioSegment :=
  match split_on_silence audio min_silence_len silence_thresh 300 with
  | [] => [audio]
  | chunks => chunks
  end.

(** The audio that the loop body tries to export for one chunk: the
    non-empty time slices of a chunk longer than the limit, the chunk
    itself when it lasts at least 100 ms, nothing when it is shorter.
    [None] is an exception raised by the arithmetic. *)
Definition pieces (chunk_length_limit_ms : Z) (chunk : AudioSegment)
    : option (list AudioSegment) :=
  if chunk_length_limit_ms <? len chunk then
    bs <- sub_chunk_bounds (len chunk) chunk_length_limit_ms ;;
    Some (map (fun ab => slice chunk (fst ab) (snd ab)) bs)
  else if len chunk <? 100 then Some []
  else Some [chunk].

Record split_state := {
  processed_chunks_paths : list (string * AudioSegment);
  total_chunks : nat;
  exports : nat   (* calls of [export] made so far *)
}.

(** One [try: export; append; total_chunks += 1; except: print]. *)
Definition export_piece (st : split_state) (piece : AudioSegment)
    : split_state :=
  if export_ok (exports st) then
    {| processed_chunks_paths :=
         processed_chunks_paths st
           ++ [(chunk_filename (total_chunks st), piece)];
       total_chunks := S (total_chunks st);
       exports := S (exports st) |}
  else
    {| processed_chunks_paths := processed_chunks_paths st;
       total_chunks := total_chunks st;
       exports := S (exports st) |}.

(** The loop over the chunks. An exception leaves both loops: the
    pieces of a chunk are therefore computed before they are exported,
    which the value returned cannot tell from the interleaving of the
    source. *)
Fixpoint process_chunks (chunk_length_limit_ms : Z)
    (chunks : list AudioSegment) (st : split_state) : option split_state :=
  match chunks with
  | [] => Some st
  | chunk :: rest =>
      ps <- pieces chunk_length_limit_ms chunk ;;
      process_chunks chunk_length_limit_ms rest (fold_left export_piece ps st)
  end.

Definition initial_state : split_state :=
  {| processed_chunks_paths := []; total_chunks := 0; exports := 0 |}.

(** [audio] is [None] when the file is missing or [from_wav] raises;
    the handler around the whole body returns the empty list on any
    exception. The result pairs each path with the audio written. *)
Definition split_audio_intelligently (audio : option AudioSegment)
    (min_silence_len silence_thresh chunk_length_limit_ms : Z)
    : list (string * AudioSegment) :=
  match audio with
  | None => []
  | Some a =>
      match process_chunks chunk_length_limit_ms
              (segments a min_silence_len silence_thresh) initial_state with
      | Some st => processed_chunks_paths st
      | None => []
      end
  end.

End Splitter.

Arguments len {sample} a.
Arguments slice {sample} a start_ms end_ms.
Arguments segments {sample} split_on_silence audio min_silence_len silence_thresh.
Arguments pieces {sample} chunk_length_limit_ms chunk.
Arguments processed_chunks_paths {sample} s.
Arguments total_chunks {sample} s.
Arguments exports {sample} s.
Arguments export_piece {sample} export_ok st piece.
Arguments process_chunks {sample} export_ok chunk_length_limit_ms chunks st.
Arguments initial_state {sample}.
Arguments split_audio_intelligently {sample} split_on_silence export_ok
  audio min_silence_len silence_thresh chunk_length_limit_ms.

Definition DEFAULT_CHUNK_LENGTH_MS : Z := 60 * 1000.
Definition DEFAULT_SILENCE_THRESH : Z := -40.
Definition DEFAULT_MIN_SILENCE_LEN : Z := 500.

(** ** Python strings *)

(** A string is the sequence of the characters of a Python [str], each
    an [ascii] holding its code point; the characters of this model are
    those below 256. [is_space] is [str.isspace] on them: the ASCII
    white space, NEL (U+0085) and the no-break space (U+00A0). *)
Definition is_space (c : ascii) : bool :=
  let n := nat_of_ascii c in
  ((9 <=? n) && (n <=? 13) || (28 <=? n) && (n <=? 32)
   || (n =? 133) || (n =? 160))%nat.

Fixpoint lstrip (s : string) : string :=
  match s with
  | EmptyString => EmptyString
  | String c s' => if is_space c then lstrip s' else s
  end.

Fixpoint rstrip (s : string) : string :=
  match s with
  | EmptyString => EmptyString
  | String c s' =>
      match rstrip s' with
      | EmptyString => if is_space c then EmptyString else String c EmptyString
      | r => String c r
      end
  end.

(** [s.strip()] *)
Definition strip (s : string) : string := rstrip (lstrip s).

(** Truth value of a string: [if text:]. *)
Definition truthy (s : string) : bool :=
  match s with
  | EmptyString => false
  | _ => true
  end.

(** [" ".join(parts)] *)
Definition join_spaces (parts : list string) : string :=
  String.concat " "%string parts.

(** ** The speech libraries and the effects of a run *)

Inductive engine := Whisper | Google.

(** The two programs share the per-chunk functions; they differ in the
    lines they log and in the loop around them. *)
Inductive frontend := CLI | GUI.

(** What [model.transcribe(chunk_path)['text']] does. *)
Inductive whisper_outcome :=
| WText (text : string)
| WRaises.

(** What [recognizer.record] followed by [recognizer.recognize_google]
    does. *)
Inductive google_outcome :=
| GText (text : string)
| GWaitTimeoutError
| GUnknownValueError
| GRequestError
| GOtherError.

(** The environment of a run: the libraries, as oracles on the chunk,
    and the standard output of the command-line program. *)
Record speech_env := {
  whisper_available : bool;
  (** [whisper.load_model(model_size)] returns a model (or raises), when
      called for the given chunk *)
  load_model_ok : string -> string -> bool;
  whisper_transcribe : string -> whisper_outcome;
  (** entering [with sr.AudioFile(chunk_path) as source] succeeds *)
  audio_file_opens : string -> bool;
  google : string -> google_outcome;
  (** [print] of a line that holds this text succeeds: the encoding of
      [sys.stdout] has all its characters (else [UnicodeEncodeError]) *)
  stdout_encodes : string -> bool
}.

Inductive log_line :=
| LWhisperUnavailable
| LTranscribing (e : engine) (chunk_path : string)
| LSegmentResult (text : string)
| LWhisperError (chunk_path : string)
| LGoogleTimeout (chunk_path : string)
| LGoogleUnknownValue (chunk_path : string)
| LGoogleRequestError (chunk_path : string)
| LGoogleUnexpected (chunk_path : string)
| LProcessingChunk (i : nat)
| LTranscription (i : nat) (text : string)
| LEmptyOrFailed (i : nat)
| LCriticalChunk (i : nat)
| LNoChunks
| LDownloadFailed
| LCriticalError.

(** What a run does to the outside, in order. *)
Inductive event :=
| LoadModel (model_size : string)
| ModelTranscribe (chunk_path : string)
| OpenAudioFile (chunk_path : string)
| RecognizeGoogle (chunk_path : string)
| Log (l : log_line).

(** The result of a Python call: a value, or an exception that leaves
    the function. *)
Inductive py (A : Type) :=
| Return (a : A)
| Raise.

Arguments Return {A} a.
Arguments Raise {A}.

Definition segment_result (ui : frontend) (text : string) : list event :=
  match ui with
  | CLI => []
  | GUI => [Log (LSegmentResult text)]
  end.

(** [transcribe_chunk_whisper]: the whole of the work is inside [try],
    whose handler returns the empty string. *)
Definition transcribe_chunk_whisper (ui : frontend) (env : speech_env)
    (chunk_path model_size : string) : py string * list event :=
  if negb (whisper_available env) then
    (Return EmptyString, [Log LWhisperUnavailable])
  else if load_model_ok env model_size chunk_path then
    match whisper_transcribe env chunk_path with
    | WText t =>
        (Return (strip t),
         [Log (LTranscribing Whisper chunk_path); LoadModel model_size;
          ModelTranscribe chunk_path] ++ segment_result ui (strip t))
    | WRaises =>
        (Return EmptyString,
         [Log (LTranscribing Whisper chunk_path); LoadModel model_size;
          ModelTranscribe chunk_path; Log (LWhisperError chunk_path)])
    end
  else
    (Return EmptyString,
     [Log (LTranscribing Whisper chunk_path); LoadModel model_size;
      Log (LWhisperError chunk_path)]).

(** The line logged by the handler that catches a Google failure; the
    GUI copy has no clause for [WaitTimeoutError], which its last clause
    catches. *)
Definition google_error_line (ui : frontend) (o : google_outcome)
    (chunk_path : string) : log_line :=
  match o, ui with
  | GWaitTimeoutError, CLI => LGoogleTimeout chunk_path
  | GUnknownValueError, _ => LGoogleUnknownValue chunk_path
  | GRequestError, _ => LGoogleRequestError chunk_path
  | _, _ => LGoogleUnexpected chunk_path
  end.

(** [transcribe_chunk_google]: the [with sr.AudioFile(chunk_path)]
    statement is outside [try]; what is raised on entering it leaves the
    function. *)
Definition transcribe_chunk_google (ui : frontend) (env : speech_env)
    (chunk_path : string) : py string * list event :=
  if audio_file_opens env chunk_path then
    match google env chunk_path with
    | GText t =>
        (Return (strip t),
         [Log (LTranscribing Google chunk_path); OpenAudioFile chunk_path;
          RecognizeGoogle chunk_path] ++ segment_result ui (strip t))
    | o =>
        (Return EmptyString,
         [Log (LTranscribing Google chunk_path); OpenAudioFile chunk_path;
          RecognizeGoogle chunk_path; Log (google_error_line ui o chunk_path)])
    end
  else
    (Raise, [Log (LTranscribing Google chunk_path); OpenAudioFile chunk_path]).

Definition transcribe_chunk (ui : frontend) (env : speech_env) (e : engine)
    (model_size chunk_path : string) : py string * list event :=
  match e with
  | Whisper => transcribe_chunk_whisper ui env chunk_path model_size
  | Google => transcribe_chunk_google ui env chunk_path
  end.

(** ** The command-line program: [main] *)

(** The body of [for i, chunk_path in enumerate(chunk_paths)] in [main]:
    the call is inside [try], and the handler only prints. So is the
    [print] of the text, which comes before [full_transcript.append]:
    when it raises, the handler is entered and the text is not appended.
    The other lines printed in the loop hold no transcribed text. The
    state is [full_transcript] and the events so far. *)
Definition main_step (env : speech_env) (e : engine) (model_size : string)
    (st : list string * list event) (ip : nat * string)
    : list string * list event :=
  let '(full_transcript, tr) := st in
  let '(i, chunk_path) := ip in
  let '(r, ev) := transcribe_chunk CLI env e model_size chunk_path in
  match r with
  | Return text =>
      if truthy text then
        if stdout_encodes env text then
          (full_transcript ++ [text],
           tr ++ Log (LProcessingChunk i) :: ev
              ++ [Log (LTranscription i text)])
        else
          (full_transcript,
           tr ++ Log (LProcessingChunk i) :: ev ++ [Log (LCriticalChunk i)])
      else
        (full_transcript,
         tr ++ Log (LProcessingChunk i) :: ev ++ [Log (LEmptyOrFailed i)])
  | Raise =>
      (full_transcript,
       tr ++ Log (LProcessingChunk i) :: ev ++ [Log (LCriticalChunk i)])
  end.

Definition enumerate {A : Type} (l : list A) : list (nat * A) :=
  combine (seq 0 (List.length l)) l.

Inductive outcome :=
| SysExit                       (* [sys.exit(1)]: engine not available *)
| DownloadFailed                (* "Failed to download audio. Exiting." *)
| NoChunks                      (* "No audio chunks were generated ..." *)
| Critical                      (* GUI only: "--- CRITICAL ERROR ---" *)
| Transcript (final_text : string).

(** Steps 3 and 4 of [main], from the list of chunk paths. *)
Definition main_after_split (env : speech_env) (e : engine)
    (whisper_model_size : string) (chunk_paths : list string)
    : outcome * list event :=
  match chunk_paths with
  | [] => (NoChunks, [Log LNoChunks])
  | _ =>
      let '(full_transcript, tr) :=
        fold_left (main_step env e whisper_model_size)
                  (enumerate chunk_paths) ([], []) in
      (Transcript (strip (join_spaces full_transcript)), tr)
  end.

(** ** The desktop program: [run_transcription_process] *)

(** The body of its loop; there is no [try] around the call here, so an
    exception leaves the loop ([None]). *)
Definition gui_step (env : speech_env) (e : engine) (model_size : string)
    (st : list string * list event) (ip : nat * string)
    : option (list string) * list event :=
  let '(transcript_parts, tr) := st in
  let '(i, chunk_path) := ip in
  match e with
  | Whisper =>
      if negb (whisper_available env) then
        (Some transcript_parts,
         tr ++ [Log (LProcessingChunk i); Log LWhisperUnavailable])
      else
        let '(r, ev) := transcribe_chunk_whisper GUI env chunk_path model_size in
        match r with
        | Return text =>
            (Some (if truthy text then transcript_parts ++ [text]
                   else transcript_parts),
             tr ++ Log (LProcessingChunk i) :: ev)
        | Raise => (None, tr ++ Log (LProcessingChunk i) :: ev)
        end
  | Google =>
      let '(r, ev) := transcribe_chunk_google GUI env chunk_path in
      match r with
      | Return text =>
          (Some (if truthy text then transcript_parts ++ [text]
                 else transcript_parts),
           tr ++ Log (LProcessingChunk i) :: ev)
      | Raise => (None, tr ++ Log (LProcessingChunk i) :: ev)
      end
  end.

Fixpoint gui_loop (env : speech_env) (e : engine) (model_size : string)
    (chunks : list (nat * string)) (st : list string * list event)
    : option (list string) * list event :=
  match chunks with
  | [] => (Some (fst st), snd st)
  | ip :: rest =>
      match gui_step env e model_size st ip with
      | (Some parts, tr) => gui_loop env e model_size rest (parts, tr)
      | (None, tr) => (None, tr)
      end
  end.

(** Steps 3 and 4 of [run_transcription_process]; the handler around the
    whole body logs the critical error and returns [False]. *)
Definition run_transcription_after_split (env : speech_env) (e : engine)
    (model_size : string) (chunk_paths : list string)
    : outcome * list event :=
  match chunk_paths with
  | [] => (NoChunks, [Log LNoChunks])
  | _ =>
      match gui_loop env e model_size (enumerate chunk_paths) ([], []) with
      | (Some transcript_parts, tr) =>
          (Transcript (strip (join_spaces transcript_parts)), tr)
      | (None, tr) => (Critical, tr ++ [Log LCriticalError])
      end
  end.

(** The value [run_transcription_process] returns. *)
Definition success (o : outcome) : bool :=
  match o with
  | Transcript final_transcript => truthy final_transcript
  | _ => false
  end.

(** ** The whole runs, from the downloaded audio *)

(** [audio_file] below is [None] when [download_audio] returns no path,
    and otherwise what [AudioSegment.from_wav] makes of the file. *)

Section Runs.

Variable sample : Type.
Variable split_on_silence :
  list sample -> Z -> Z -> Z -> list (list sample).
Variable export_ok : nat -> bool.

(** [main(args)]; neither program passes [chunk_length_limit_ms], which
    keeps its default [DEFAULT_CHUNK_LENGTH_MS * 2]. *)
Definition main (env : speech_env) (e : engine)
    (whisper_model_size : string) (silence_thresh min_silence_len : Z)
    (audio_file : option (option (list sample))) : outcome * list event :=
  match e, whisper_available env with
  | Whisper, false => (SysExit, [])
  | _, _ =>
      match audio_file with
      | None => (DownloadFailed, [Log LDownloadFailed])
      | Some wav =>
          main_after_split env e whisper_model_size
            (map fst (split_audio_intelligently split_on_silence export_ok
                        wav min_silence_len silence_thresh
                        (DEFAULT_CHUNK_LENGTH_MS * 2)))
      end
  end.

(** [run_transcription_process(url, engine, model_size, output_widget)] *)
Definition run_transcription_process (env : speech_env) (e : engine)
    (model_size : string) (audio_file : option (option (list sample)))
    : outcome * list event :=
  match audio_file with
  | None => (DownloadFailed, [Log LDownloadFailed])
  | Some wav =>
      run_transcription_after_split env e model_size
        (map fst (split_audio_intelligently split_on_silence export_ok
                    wav DEFAULT_MIN_SILENCE_LEN DEFAULT_SILENCE_THRESH
                    (DEFAULT_CHUNK_LENGTH_MS * 2)))
  end.

End Runs.

Arguments main {sample} split_on_silence export_ok env e whisper_model_size
  silence_thresh min_silence_len audio_file.
Arguments run_transcription_process {sample} split_on_silence export_ok
  env e model_size audio_file.

(** The calls a run makes to a transcription backend. *)
Definition is_backend_call (ev : event) : bool :=
  match ev with
  | Log _ => false
  | _ => true
  end.

Definition is_load (ev : event) : bool :=
  match ev with
  | LoadModel _ => true
  | _ => false
  end.

(** How many times [whisper.load_model] was called. *)
Definition loads (tr : list event) : nat := List.length (filter is_load tr).

(** ** Vocabulary of the statements *)

(** A string with no white space at either end. *)
Definition trimmed (s : string) : Prop := lstrip s = s /\ rstrip s = s.

(** The text that the loop of [main] gets for a chunk: what the
    per-chunk function returns, and the initial [text = ""] when it
    raises. *)
Definition chunk_text (env : speech_env) (e : engine) (model_size : string)
    (chunk_path : string) : string :=
  match fst (transcribe_chunk CLI env e model_size chunk_path) with
  | Return text => text
  | Raise => EmptyString
  end.

(** The backend fails on a chunk: a library call made for it raises. *)
Definition fails (env : speech_env) (e : engine) (model_size : string)
    (chunk_path : string) : bool :=
  match e with
  | Whisper =>
      negb (load_model_ok env model_size chunk_path)
      || match whisper_transcribe env chunk_path with
         | WRaises => true
         | WText _ => false
         end
  | Google =>
      negb (audio_file_opens env chunk_path)
      || match google env chunk_path with
         | GText _ => false
         | _ => true
         end
  end.


(** [main] appends the text it got for a chunk: the text is not empty,
    and the line that shows it was printed. *)
Definition appended (env : speech_env) (text : string) : bool :=
  truthy text && stdout_encodes env text.

(** The events of one turn of the loop of [main]. *)
Definition main_chunk_events (env : speech_env) (e : engine)
    (model_size : string) (ip : nat * string) : list event :=
  let '(r, ev) := transcribe_chunk CLI env e model_size (snd ip) in
  Log (LProcessingChunk (fst ip)) :: ev ++
  [Log match r with
       | Return text =>
           if truthy text then
             if stdout_encodes env text then LTranscription (fst ip) text
             else LCriticalChunk (fst ip)
           else LEmptyOrFailed (fst ip)
       | Raise => LCriticalChunk (fst ip)
       end].

(** The events of a sequence of calls of [transcribe_chunk_whisper], one
    per chunk, with the same model size. *)
Definition whisper_calls (ui : frontend) (env : speech_env)
    (model_size : string) (chunk_paths : list string) : list event :=
  flat_map (fun p => snd (transcribe_chunk_whisper ui env p model_size))
           chunk_paths.

(** The pieces whose export succeeds, the first attempt being the k-th
    call of [export]. *)
Fixpoint exported {A : Type} (export_ok : nat -> bool) (k : nat)
    (ps : list A) : list A :=
  match ps with
  | [] => []
  | p :: rest =>
      if export_ok k then p :: exported export_ok (S k) rest
      else exported export_ok (S k) rest
  end.

(** The pieces of all the chunks, in order. *)
Fixpoint all_pieces {sample : Type} (chunk_length_limit_ms : Z)
    (chunks : list (list sample)) : option (list (list sample)) :=
  match chunks with
  | [] => Some []
  | chunk :: rest =>
      ps <- pieces chunk_length_limit_ms chunk ;;
      qs <- all_pieces chunk_length_limit_ms rest ;;
      Some (ps ++ qs)
  end.

(** The invariant of the export loop: the paths are numbered by their
    position. *)
Definition numbered {sample : Type} (st : split_state sample) : Prop :=
  map fst (processed_chunks_paths st)
    = map chunk_filename (seq 0 (total_chunks st))
  /\ List.length (processed_chunks_paths st) = total_chunks st.

(** The value of a float is a dyadic rational [m * 2^e]. *)
Definition pow2 (e : Z) : Q := Qpower (2 # 1) e.

(** The relative error of one rounding step, as the proofs below bound
    it: one unit in the last place of a 53-bit mantissa. *)
Definition eps : Q := 1 # (2 ^ 52).

(** A positive float with a full mantissa. *)
Definition normal (x : PyFloat.float) (m : positive) (e : Z) : Prop :=
  x = S754_finite false m e /\ Z.pos (digits2_pos m) = 53.

(** The lengths for which the two roundings of the time split stay
    below one millisecond: with [n] sub-chunks, [n * L <= 2^50]. At the
    default limit of 120000 ms this holds up to more than 100 days. *)
Definition in_range (L limit : Z) : Prop :=
  (L + limit - 1) / limit * L <= 2 ^ 50.

(** [int(j * sub_chunk_len)], the j-th cut of a segment of [L] ms split
    in [n] (0 where the arithmetic raises). *)
Definition cut (L n j : Z) : Z :=
  match sub_chunk_len L n with
  | Some s =>
      match start_ms s j with
      | Some b => b
      | None => 0
      end
  | None => 0
  end.

(** Not below zero: the sign bit is clear (NaN has none). *)
Definition nonneg (x : PyFloat.float) : Prop :=
  match x with
  | S754_zero s | S754_infinity s | S754_finite s _ _ => s = false
  | S754_nan => True
  end.

(** Environments and inputs of the examples. *)
Definition env_example : speech_env :=
  {| whisper_available := true;
     load_model_ok := fun _ _ => true;
     whisper_transcribe := fun p =>
       if String.eqb p "chunk_3.wav"%string then WRaises else WText " hello "%string;
     audio_file_opens := fun p => negb (String.eqb p "chunk_3.wav"%string);
     google := fun _ => GText "good morning "%string;
     stdout_encodes := fun _ => true |}.

(** The same, but chunk 3 is transcribed and holds no speech. *)
Definition env_silent : speech_env :=
  {| whisper_available := true;
     load_model_ok := fun _ _ => true;
     whisper_transcribe := fun p =>
       if String.eqb p "chunk_3.wav"%string then WText "  "%string
       else WText " hello "%string;
     audio_file_opens := fun _ => true;
     google := fun _ => GText "good morning "%string;
     stdout_encodes := fun _ => true |}.

(** A text with a character that is not ASCII: [caf] followed by
    U+00E9, the letter e with an acute accent. *)
Definition cafe : string :=
  ("caf" ++ String (ascii_of_nat 233) EmptyString)%string.

(** What a standard output with the ASCII encoding can print. *)
Fixpoint ascii_only (s : string) : bool :=
  match s with
  | EmptyString => true
  | String c s' => (nat_of_ascii c <? 128)%nat && ascii_only s'
  end.

(** A run of the command-line program whose standard output is ASCII
    (as under [PYTHONIOENCODING=ascii]): Whisper raises on chunk 3 and
    hears [cafe] in chunk 1. *)
Definition env_ascii_stdout : speech_env :=
  {| whisper_available := true;
     load_model_ok := fun _ _ => true;
     whisper_transcribe := fun p =>
       if String.eqb p "chunk_3.wav"%string then WRaises
       else if String.eqb p "chunk_1.wav"%string
            then WText (" " ++ cafe ++ " ")%string
            else WText " hello "%string;
     audio_file_opens := fun _ => true;
     google := fun _ => GText "good morning "%string;
     stdout_encodes := ascii_only |}.

Definition five_chunks : list string := map chunk_filename (seq 0 5).

Definition no_silence {A : Type} (_ : list A) (_ _ _ : Z) : list (list A) := [].

Definition always (_ : nat) : bool := true.

Definition frames (n : nat) : list unit := repeat tt n.

(** ** [download_audio] *)

(** [s.endswith(suffix)]; [s.startswith(p)] is [String.prefix p s]. *)
Fixpoint endswith (s suffix : string) : bool :=
  String.eqb s suffix
  || match s with
     | EmptyString => false
     | String _ s' => endswith s' suffix
     end.

(** What [subprocess.run(command, ..., check=True)] does. *)
Inductive ytdlp_outcome :=
| YtCompleted
| YtFileNotFoundError
| YtCalledProcessError
| YtOtherError.

(** The file system and the [yt-dlp] program, as [download_audio] sees
    them; [listdir] is [None] when [os.listdir] raises. *)
Record download_env := {
  run_ytdlp : list string -> ytdlp_outcome;
  path_exists : string -> bool;
  listdir : string -> option (list string)
}.

Definition ytdlp_command (output_template youtube_url : string)
    : list string :=
  ["yt-dlp"; "--no-check-certificate"; "-x"; "--audio-format"; "wav";
   "-o"; output_template; "--no-playlist"; "--progress"; "--verbose";
   youtube_url]%string.

(** [f.startswith('downloaded_audio') and f.endswith('.wav')] *)
Definition is_downloaded_wav (f : string) : bool :=
  String.prefix "downloaded_audio" f && endswith f ".wav".

Section Download.

(** [os.path.join] *)
Variable path_join : string -> string -> string.

(** [download_audio(youtube_url, temp_dir)], the same in both programs
    but for what is logged: the path of the WAV file, or [None]. Each of
    the three handlers returns [None]. *)
Definition download_audio (env : download_env)
    (youtube_url temp_dir : string) : option string :=
  let output_base := path_join temp_dir "downloaded_audio" in
  let output_template := (output_base ++ ".%(ext)s")%string in
  let wav_path := (output_base ++ ".wav")%string in
  match run_ytdlp env (ytdlp_command output_template youtube_url) with
  | YtCompleted =>
      if path_exists env wav_path then Some wav_path
      else
        match listdir env temp_dir with
        | Some files =>
            match filter is_downloaded_wav files with
            | f :: _ => Some (path_join temp_dir f)
            | [] => None
            end
        | None => None
        end
  | YtFileNotFoundError | YtCalledProcessError | YtOtherError => None
  end.

End Download.

(** [posixpath.join] on two components. *)
Definition posix_join (a b : string) : string :=
  if String.prefix "/" b then b
  else if String.eqb a "" || endswith a "/" then (a ++ b)%string
  else (a ++ "/" ++ b)%string.

(** ** The log widget of the desktop program, and [save_transcript] *)

Definition newline : string := String (ascii_of_nat 10) EmptyString.

(** What changes the text of the [ScrolledText] widget. Every call is
    queued with [output_widget.after(0, ...)] from the one worker thread
    and runs in the order of the calls. *)
Inductive widget_op :=
| WAppend (message : string)   (* [log_message]: [insert(tk.END, message + "\n")] *)
| WDeleteAll                   (* [delete('1.0', tk.END)] *)
| WInsert (text : string).     (* [insert(tk.END, text)] *)

(** The text of the widget, without the newline that Tk keeps at its
    end. *)
Definition widget_step (content : string) (op : widget_op) : string :=
  match op with
  | WAppend message => (content ++ message ++ newline)%string
  | WDeleteAll => EmptyString
  | WInsert text => (content ++ text)%string
  end.

Definition widget_run (ops : list widget_op) (content : string) : string :=
  fold_left widget_step ops content.

(** Step 4 of [run_transcription_process], on the widget. *)
Definition display_ops (final_transcript : string) : list widget_op :=
  WAppend (newline ++ "--- Transcription Complete ---")
  :: (if truthy final_transcript then
        [WDeleteAll; WInsert final_transcript;
         WAppend (newline ++ "Final transcript displayed above.")]
      else
        [WAppend "WARNING: Transcription finished but produced no text."]).

(** The messages of its [finally] clause: nothing unless [temp_dir] is
    set and still exists; [rmtree_error] is the text of the exception
    that [shutil.rmtree] raises, if it does. *)
Definition cleanup_messages (temp_dir : string) (temp_dir_exists : bool)
    (rmtree_error : option string) : list string :=
  if truthy temp_dir && temp_dir_exists then
    [("Cleaning up temporary directory: " ++ temp_dir)%string;
     match rmtree_error with
     | None => "Cleanup complete."%string
     | Some e =>
         ("Warning: Could not remove temp directory " ++ temp_dir
          ++ ": " ++ e)%string
     end]
  else [].

(** The widget at the end of a run that reaches step 4, [earlier] being
    all that was queued before. *)
Definition widget_after_run (earlier : list widget_op)
    (final_transcript temp_dir : string) (temp_dir_exists : bool)
    (rmtree_error : option string) (content : string) : string :=
  widget_run
    (earlier ++ display_ops final_transcript
     ++ map WAppend (cleanup_messages temp_dir temp_dir_exists rmtree_error))
    content.

(** [save_transcript]: the text written to the chosen file,
    [self.output_text.get("1.0", tk.END).strip()]. *)
Definition save_transcript (content : string) : string :=
  strip (content ++ newline).

(** ** The window: [TranscriptionApp.start_transcription_thread] *)

(** The checks made before the worker thread is started with
    [run_transcription_process(url, engine, model_size, ...)]; [None] is
    an error box and no run. The engine is the value of a read-only
    combobox. *)
Definition start_transcription_thread (env : speech_env)
    (url_entry : string) (e : engine) (model_var : string)
    : option (string * engine * string) :=
  let url := strip url_entry in
  if negb (truthy url) then None
  else
    match e with
    | Whisper =>
        if negb (whisper_available env) then None
        else if String.eqb model_var "N/A" then None
        else Some (url, e, model_var)
    | Google => Some (url, e, model_var)
    end.

(** ** Vocabulary of the further statements *)

(** A list up to its first element that stops, that one included. *)
Fixpoint until_first {A : Type} (stop : A -> bool) (l : list A) : list A :=
  match l with
  | [] => []
  | a :: rest => if stop a then [a] else a :: until_first stop rest
  end.

(** The lines "Whisper selected but not installed" of a run. *)
Definition unavailable_lines (tr : list event) : list event :=
  filter (fun ev => match ev with
                    | Log LWhisperUnavailable => true
                    | _ => false
                    end) tr.

(** An exception leaves the loop of the desktop program on this chunk. *)
Definition gui_escapes (env : speech_env) (e : engine) (chunk_path : string)
    : bool :=
  match e with
  | Whisper => false
  | Google => negb (audio_file_opens env chunk_path)
  end.

(** The chunks on which a run calls the transcription itself
    ([model.transcribe] or the recognizer), in the order of the calls. *)
Definition backend_calls (tr : list event) : list string :=
  flat_map (fun ev => match ev with
                      | ModelTranscribe p | RecognizeGoogle p => [p]
                      | _ => []
                      end) tr.

(** The chunk numbers announced ("Processing chunk i+1/n"), in order. *)
Definition announced (tr : list event) : list nat :=
  flat_map (fun ev => match ev with
                      | Log (LProcessingChunk i) => [i]
                      | _ => []
                      end) tr.

(** The transcription itself is reached for this chunk. *)
Definition reached (env : speech_env) (e : engine) (model_size : string)
    (chunk_path : string) : bool :=
  match e with
  | Whisper =>
      whisper_available env && load_model_ok env model_size chunk_path
  | Google => audio_file_opens env chunk_path
  end.

(** Examples. *)
Definition download_example : download_env :=
  {| run_ytdlp := fun _ => YtCompleted;
     path_exists := fun _ => false;
     listdir := fun _ =>
       Some ["notes.txt"; "downloaded_audio.f140.wav"]%string |}.

Definition second_export_fails (k : nat) : bool := negb (Nat.eqb k 1).

(** * Properties *)

(** ** Strings: what [strip] leaves *)

Local Open Scope string_scope.

Lemma lstrip_idem : forall s, lstrip (lstrip s) = lstrip s.
Proof.
  induction s as [| c s IH]; simpl; auto.
  destruct (is_space c) eqn:E; auto.
  simpl. now rewrite E.
Qed.

Lemma rstrip_idem : forall s, rstrip (rstrip s) = rstrip s.
Proof.
  induction s as [| c s IH]; simpl; auto.
  destruct (rstrip s) as [| d r] eqn:E.
  - destruct (is_space c) eqn:Ec; simpl; auto. now rewrite Ec.
  - simpl in *. now rewrite IH.
Qed.

Lemma lstrip_head : forall c s,
  is_space c = false -> lstrip (String c s) = String c s.
Proof. intros c s H. simpl. now rewrite H. Qed.

Lemma lstrip_fixed_head : forall c s,
  lstrip (String c s) = String c s -> is_space c = false.
Proof.
  intros c s H. simpl in H. destruct (is_space c); auto.
  exfalso.
  assert (L : forall t, (String.length (lstrip t) <= String.length t)%nat).
  { induction t as [| d t IH]; simpl; auto.
    destruct (is_space d); simpl; lia. }
  specialize (L s). rewrite H in L. simpl in L. lia.
Qed.

Lemma rstrip_head : forall c s,
  is_space c = false -> exists r, rstrip (String c s) = String c r.
Proof.
  intros c s H. simpl. destruct (rstrip s).
  - rewrite H. now exists EmptyString.
  - eexists. reflexivity.
Qed.

Lemma strip_trimmed : forall s, trimmed (strip s).
Proof.
  intro s. unfold trimmed, strip. split.
  - destruct (lstrip s) as [| c t] eqn:E; auto.
    assert (Hc : is_space c = false).
    { apply lstrip_fixed_head with (s := t). rewrite <- E. apply lstrip_idem. }
    destruct (rstrip_head c t Hc) as [r Hr]. rewrite Hr.
    now apply lstrip_head.
  - apply rstrip_idem.
Qed.

Lemma rstrip_app : forall x y,
  rstrip (x ++ y) =
  match rstrip y with
  | EmptyString => rstrip x
  | r => x ++ r
  end.
Proof.
  induction x as [| c x IH]; intro y; simpl.
  - destruct (rstrip y); auto.
  - rewrite IH. destruct (rstrip y) as [| d r]; auto.
    destruct x; reflexivity.
Qed.

Lemma trimmed_join : forall parts,
  Forall (fun s => truthy s = true /\ trimmed s) parts ->
  parts <> [] ->
  truthy (join_spaces parts) = true /\ trimmed (join_spaces parts).
Proof.
  unfold join_spaces.
  induction parts as [| x rest IH]; intros HF Hne; [congruence |].
  inversion HF as [| ? ? [Hx [Hl Hr]] HF']; subst.
  destruct rest as [| y rest'].
  - simpl. repeat split; auto.
  - destruct (IH HF') as [Ht [Hjl Hjr]]; [discriminate |].
    change (String.concat " " (x :: y :: rest'))
      with (x ++ " " ++ String.concat " " (y :: rest')).
    set (J := String.concat " " (y :: rest')) in *.
    destruct x as [| c x']; [discriminate |].
    repeat split.
    + apply lstrip_head. now apply lstrip_fixed_head with (s := x').
    + rewrite rstrip_app.
      assert (E : rstrip (" " ++ J) = " " ++ J).
      { change (" " ++ J) with (String " " J). simpl.
        rewrite Hjr. destruct J; [discriminate | reflexivity]. }
      rewrite E. reflexivity.
Qed.

Lemma strip_join : forall parts,
  Forall (fun s => truthy s = true /\ trimmed s) parts ->
  strip (join_spaces parts) = join_spaces parts.
Proof.
  intros parts HF. destruct parts as [| x rest]; [reflexivity |].
  destruct (trimmed_join (x :: rest) HF) as [_ [Hl Hr]]; [discriminate |].
  unfold strip. now rewrite Hl, Hr.
Qed.

Local Close Scope string_scope.

(** ** The per-chunk functions *)

Lemma transcribe_chunk_whisper_total : forall ui env chunk_path model_size,
  exists text,
    fst (transcribe_chunk_whisper ui env chunk_path model_size) = Return text
    /\ trimmed text.
Proof.
  intros ui env p m. unfold transcribe_chunk_whisper.
  assert (T0 : trimmed EmptyString) by (split; reflexivity).
  destruct (whisper_available env); simpl; [| eauto].
  destruct (load_model_ok env m p); simpl; [| eauto].
  destruct (whisper_transcribe env p) as [t |]; simpl; [| eauto].
  exists (strip t). split; [reflexivity | apply strip_trimmed].
Qed.

Lemma transcribe_chunk_google_opened : forall ui env chunk_path,
  audio_file_opens env chunk_path = true ->
  exists text,
    fst (transcribe_chunk_google ui env chunk_path) = Return text
    /\ trimmed text.
Proof.
  intros ui env p H. unfold transcribe_chunk_google. rewrite H.
  assert (T0 : trimmed EmptyString) by (split; reflexivity).
  destruct (google env p) as [t | | | |]; simpl; eauto.
  exists (strip t). split; [reflexivity | apply strip_trimmed].
Qed.

Lemma transcribe_chunk_google_unopened : forall ui env chunk_path,
  audio_file_opens env chunk_path = false ->
  fst (transcribe_chunk_google ui env chunk_path) = Raise.
Proof.
  intros ui env p H. unfold transcribe_chunk_google. now rewrite H.
Qed.

Lemma chunk_text_trimmed : forall env e model_size chunk_path,
  trimmed (chunk_text env e model_size chunk_path).
Proof.
  intros env e m p. unfold chunk_text, transcribe_chunk.
  assert (T0 : trimmed EmptyString) by (split; reflexivity).
  destruct e.
  - destruct (transcribe_chunk_whisper_total CLI env p m) as [t [Ht Tt]].
    now rewrite Ht.
  - destruct (audio_file_opens env p) eqn:E.
    + destruct (transcribe_chunk_google_opened CLI env p E) as [t [Ht Tt]].
      now rewrite Ht.
    + now rewrite (transcribe_chunk_google_unopened CLI env p E).
Qed.



(** ** The loop of [main] *)

Lemma main_step_spec : forall env e model_size full tr ip,
  main_step env e model_size (full, tr) ip =
  (full ++ filter (appended env) [chunk_text env e model_size (snd ip)],
   tr ++ main_chunk_events env e model_size ip).
Proof.
  intros env e m full tr [i p].
  unfold main_step, main_chunk_events, chunk_text, appended.
  simpl snd. simpl fst.
  destruct (transcribe_chunk CLI env e m p) as [[t |] ev]; simpl.
  - destruct (truthy t); simpl; [| now rewrite app_nil_r].
    destruct (stdout_encodes env t); simpl;
      [reflexivity | now rewrite app_nil_r].
  - now rewrite app_nil_r.
Qed.

Lemma main_loop_spec : forall env e model_size l full tr,
  fold_left (main_step env e model_size) l (full, tr) =
  (full ++ filter (appended env)
             (map (chunk_text env e model_size) (map snd l)),
   tr ++ flat_map (main_chunk_events env e model_size) l).
Proof.
  intros env e m. induction l as [| ip l IH]; intros full tr.
  - simpl. now rewrite !app_nil_r.
  - cbn [fold_left]. rewrite main_step_spec, IH.
    cbn [map flat_map filter].
    destruct (appended env (chunk_text env e m (snd ip))); simpl;
      now rewrite <- !app_assoc.
Qed.

Lemma combine_seq_snd : forall (A : Type) (l : list A) s,
  map snd (combine (seq s (List.length l)) l) = l.
Proof.
  induction l as [| a l IH]; intro s; simpl; [reflexivity |].
  now rewrite IH.
Qed.

Lemma enumerate_snd : forall (A : Type) (l : list A),
  map snd (enumerate l) = l.
Proof. intros. apply combine_seq_snd. Qed.

Lemma enumerate_length : forall (A : Type) (l : list A),
  List.length (enumerate l) = List.length l.
Proof.
  intros. unfold enumerate.
  rewrite length_combine, length_seq. apply Nat.min_id.
Qed.


Lemma main_after_split_spec : forall env e model_size chunk_paths,
  chunk_paths <> [] ->
  main_after_split env e model_size chunk_paths =
  (Transcript (join_spaces
     (filter (appended env) (map (chunk_text env e model_size) chunk_paths))),
   flat_map (main_chunk_events env e model_size) (enumerate chunk_paths)).
Proof.
  intros env e m paths Hne. unfold main_after_split.
  destruct paths as [| p rest]; [congruence |].
  rewrite main_loop_spec, enumerate_snd. simpl app.
  f_equal. f_equal. apply strip_join.
  apply Forall_forall. intros t Ht.
  apply filter_In in Ht. destruct Ht as [Hin Htr].
  unfold appended in Htr. apply andb_prop in Htr. split; [apply Htr |].
  apply in_map_iff in Hin. destruct Hin as [q [<- _]].
  apply chunk_text_trimmed.
Qed.

(** ** The runs *)

Lemma loads_app : forall tr1 tr2, loads (tr1 ++ tr2) = (loads tr1 + loads tr2)%nat.
Proof.
  intros. unfold loads. now rewrite filter_app, length_app.
Qed.

Lemma loads_whisper_call : forall ui env chunk_path model_size,
  whisper_available env = true ->
  loads (snd (transcribe_chunk_whisper ui env chunk_path model_size)) = 1%nat.
Proof.
  intros ui env p m Hav. unfold transcribe_chunk_whisper. rewrite Hav. simpl.
  destruct (load_model_ok env m p); [| reflexivity].
  destruct (whisper_transcribe env p); [| reflexivity].
  destruct ui; reflexivity.
Qed.

Lemma loads_main_chunk : forall env model_size ip,
  whisper_available env = true ->
  loads (main_chunk_events env Whisper model_size ip) = 1%nat.
Proof.
  intros env m [i p] Hav. unfold main_chunk_events, transcribe_chunk.
  pose proof (loads_whisper_call CLI env p m Hav) as H. simpl snd in *.
  destruct (transcribe_chunk_whisper CLI env p m) as [r ev]. simpl in H.
  change (Log (LProcessingChunk (fst (i, p))) :: ev ++ ?l)
    with ([Log (LProcessingChunk (fst (i, p)))] ++ ev ++ l).
  rewrite !loads_app, H. reflexivity.
Qed.

Lemma loads_flat_map : forall (A : Type) (f : A -> list event) l,
  (forall a, In a l -> loads (f a) = 1%nat) ->
  loads (flat_map f l) = List.length l.
Proof.
  induction l as [| a l IH]; intro H; simpl; [reflexivity |].
  rewrite loads_app, H, IH; auto with datatypes.
Qed.

(** C4, at an input where it fails: Whisper raises on chunk 3 and
    succeeds on the four others, and the standard output cannot print
    the text of chunk 1. The run ends with a transcript and the failure
    of chunk 3 is logged, but the transcript leaves out chunk 1 as well:
    [print] raises inside the [try], before the text is appended, and
    the handler meant for the transcription swallows it. The desktop
    program, which appends without printing, keeps the text. *)
Theorem C4_successful_chunk_left_out :
  map (fails env_ascii_stdout Whisper "base") five_chunks
    = [false; false; false; true; false]
  /\ map (chunk_text env_ascii_stdout Whisper "base") five_chunks
     = ["hello"; cafe; "hello"; ""; "hello"]%string
  /\ fst (main_after_split env_ascii_stdout Whisper "base" five_chunks)
     = Transcript "hello hello hello"
  /\ In (Log (LWhisperError "chunk_3.wav"))
        (snd (main_after_split env_ascii_stdout Whisper "base" five_chunks))
  /\ In (Log (LCriticalChunk 1))
        (snd (main_after_split env_ascii_stdout Whisper "base" five_chunks))
  /\ fst (run_transcription_after_split env_ascii_stdout Whisper "base"
            five_chunks)
     = Transcript ("hello " ++ cafe ++ " hello hello").
Proof.
  split; [reflexivity |]. split; [reflexivity |]. split; [reflexivity |].
  split; [vm_compute; tauto |]. split; [vm_compute; tauto | reflexivity].
Qed.

(** C7, at an input where it fails: the texts of the chunks that are not
    empty are [hello], [cafe], [hello] and [hello]; the final text of
    [main] is the join of three of them only, the one that its standard
    output cannot print being left out, while the loop of the desktop
    program, which appends without printing, joins the four. *)
Theorem C7_unprintable_text_left_out :
  filter truthy (map (chunk_text env_ascii_stdout Whisper "base") five_chunks)
    = ["hello"; cafe; "hello"; "hello"]%string
  /\ fst (main_after_split env_ascii_stdout Whisper "base" five_chunks)
     = Transcript (join_spaces ["hello"; "hello"; "hello"]%string)
  /\ fst (run_transcription_after_split env_ascii_stdout Whisper "base"
            five_chunks)
     = Transcript (join_spaces ["hello"; cafe; "hello"; "hello"]%string).
Proof. repeat split; reflexivity. Qed.

(** C8: when the split returns no chunk, both programs stop with the
    "no chunks" message and call no transcription backend. *)
Theorem C8_no_chunks_no_transcription :
  forall (sample : Type) split_on_silence export_ok env e model_size
         silence_thresh min_silence_len (wav : option (list sample)),
  (e = Whisper -> whisper_available env = true) ->
  (split_audio_intelligently split_on_silence export_ok wav
     min_silence_len silence_thresh (DEFAULT_CHUNK_LENGTH_MS * 2) = [] ->
   let r := main split_on_silence export_ok env e model_size
              silence_thresh min_silence_len (Some wav) in
   fst r = NoChunks /\ filter is_backend_call (snd r) = [])
  /\
  (split_audio_intelligently split_on_silence export_ok wav
     DEFAULT_MIN_SILENCE_LEN DEFAULT_SILENCE_THRESH
     (DEFAULT_CHUNK_LENGTH_MS * 2) = [] ->
   let r := run_transcription_process split_on_silence export_ok env e
              model_size (Some wav) in
   fst r = NoChunks /\ filter is_backend_call (snd r) = []).
Proof.
  intros sample sos eok env e m st msl wav Hav. split; intros Hs r; subst r.
  - unfold main. rewrite Hs.
    destruct e; [rewrite (Hav eq_refl) |]; simpl; auto.
  - unfold run_transcription_process. rewrite Hs. simpl. auto.
Qed.

Lemma C8_witness :
  let cli := main no_silence always env_example Google "base"
               DEFAULT_SILENCE_THRESH DEFAULT_MIN_SILENCE_LEN
               (Some (Some (frames 50))) in
  let gui := run_transcription_process no_silence always env_example Google
               "base" (Some (Some (frames 50))) in
  (fst cli = NoChunks /\ filter is_backend_call (snd cli) = [])
  /\ (fst gui = NoChunks /\ filter is_backend_call (snd gui) = []).
Proof.
  destruct (C8_no_chunks_no_transcription unit no_silence always env_example
              Google "base" DEFAULT_SILENCE_THRESH DEFAULT_MIN_SILENCE_LEN
              (Some (frames 50)) (fun _ => eq_refl))
    as [Hc Hg].
  split; [exact (Hc eq_refl) | exact (Hg eq_refl)].
Defined.

(** C9, as the claim states it, fails: two calls with the same model size
    call [whisper.load_model] twice. *)
Lemma C9_counterexample :
  ~ (loads (whisper_calls CLI env_example "base"
              [chunk_filename 0; chunk_filename 1]) <= 1)%nat.
Proof. vm_compute. lia. Qed.

(** C9, amended: the program keeps no loaded model. Every call of
    [transcribe_chunk_whisper] calls [whisper.load_model] again, so a
    sequence of calls with one model size loads as many times as there
    are calls, and a run of [main] loads once per chunk. *)
Theorem C9_model_loaded_on_every_call :
  forall ui env model_size chunk_paths,
  whisper_available env = true ->
  loads (whisper_calls ui env model_size chunk_paths)
    = List.length chunk_paths
  /\ loads (snd (main_after_split env Whisper model_size chunk_paths))
    = List.length chunk_paths.
Proof.
  intros ui env m paths Hav. split.
  - unfold whisper_calls. apply loads_flat_map.
    intros p _. now apply loads_whisper_call.
  - destruct paths as [| p rest]; [reflexivity |].
    rewrite main_after_split_spec by discriminate. cbn [snd].
    rewrite loads_flat_map, enumerate_length; [reflexivity |].
    intros ip _. now apply loads_main_chunk.
Qed.

Lemma C9_witness :
  loads (whisper_calls GUI env_example "base" five_chunks) = 5%nat
  /\ loads (snd (main_after_split env_example Whisper "base" five_chunks))
     = 5%nat.
Proof.
  exact (C9_model_loaded_on_every_call GUI env_example "base" five_chunks
           eq_refl).
Defined.

(** C10, at an input where it fails: with the Google engine and a chunk
    file that [sr.AudioFile] cannot open, [transcribe_chunk_google]
    raises; the loop of the desktop program is left and the run ends in
    the critical-error handler, while [main] catches the exception and
    goes on to the next chunk. *)
Theorem C10_audio_file_failure_escapes :
  fst (transcribe_chunk_google GUI env_example (chunk_filename 3)) = Raise
  /\ fst (transcribe_chunk_google CLI env_example (chunk_filename 3)) = Raise
  /\ fst (run_transcription_after_split env_example Google "base" five_chunks)
     = Critical
  /\ fst (main_after_split env_example Google "base" five_chunks)
     = Transcript "good morning good morning good morning good morning".
Proof. repeat split; reflexivity. Qed.

(** ** Floats: rounding in the normal range *)

(** The splitter computes [int(j * (L / n))]: two roundings to nearest,
    then a truncation. What follows reads the result of
    [binary_round_aux], the rounding step shared by the operations of
    [SpecFloat], as one of the two 53-bit neighbours of the exact value;
    that is within one unit in the last place, which is enough, and
    exact where the exact value is an integer below 2^53. *)

Import PyFloat.

Lemma digits2_pos_bounds : forall p : positive,
  2 ^ (Z.pos (digits2_pos p) - 1) <= Z.pos p < 2 ^ Z.pos (digits2_pos p).
Proof.
  induction p as [p IH | p IH |]; simpl digits2_pos.
  - rewrite Pos2Z.inj_succ.
    replace (Z.succ (Z.pos (digits2_pos p)) - 1)
      with (Z.succ (Z.pos (digits2_pos p) - 1)) by lia.
    rewrite !Z.pow_succ_r by lia. lia.
  - rewrite Pos2Z.inj_succ.
    replace (Z.succ (Z.pos (digits2_pos p)) - 1)
      with (Z.succ (Z.pos (digits2_pos p) - 1)) by lia.
    rewrite !Z.pow_succ_r by lia. lia.
  - simpl. lia.
Qed.

Lemma digits2_pos_unique : forall (p : positive) (d : Z),
  2 ^ (d - 1) <= Z.pos p < 2 ^ d -> Z.pos (digits2_pos p) = d.
Proof.
  intros p d [Hlo Hhi].
  pose proof (digits2_pos_bounds p) as [Blo Bhi].
  assert (0 < d).
  { destruct (Z.ltb_spec 0 d); auto.
    assert (2 ^ d <= 1).
    { destruct (Z.eq_dec d 0); [subst; simpl; lia |].
      rewrite Z.pow_neg_r by lia. lia. }
    lia. }
  set (D := Z.pos (digits2_pos p)) in *.
  destruct (Z.lt_trichotomy D d) as [Hlt | [Heq | Hgt]]; auto; exfalso.
  - assert (2 ^ D <= 2 ^ (d - 1)) by (apply Z.pow_le_mono_r; lia). lia.
  - assert (2 ^ d <= 2 ^ (D - 1)) by (apply Z.pow_le_mono_r; lia). lia.
Qed.

(** Shifting right: the mantissa is divided, and the round and sticky
    bits stay clear when nothing but zeros is shifted out. *)

Lemma iter_pos_nat : forall (A : Type) (f : A -> A) p x,
  iter_pos f p x = Nat.iter (Pos.to_nat p) f x.
Proof.
  intros A f. induction p as [p IH | p IH |]; intro x; simpl iter_pos.
  - rewrite !IH, Pos2Nat.inj_xI.
    replace (S (2 * Pos.to_nat p))%nat
      with (Pos.to_nat p + (Pos.to_nat p + 1))%nat by lia.
    rewrite !Nat.iter_add. reflexivity.
  - rewrite !IH, Pos2Nat.inj_xO.
    replace (2 * Pos.to_nat p)%nat
      with (Pos.to_nat p + Pos.to_nat p)%nat by lia.
    rewrite Nat.iter_add. reflexivity.
  - reflexivity.
Qed.

Lemma shr_1_m : forall mrs,
  0 <= shr_m mrs -> shr_m (shr_1 mrs) = shr_m mrs / 2.
Proof.
  intros [m r s] H. cbn [shr_m] in *.
  destruct m as [| [p | p |] | p]; cbn [shr_1 shr_m]; try lia; try reflexivity.
  - rewrite Pos2Z.inj_xI.
    replace (2 * Z.pos p + 1) with (1 + Z.pos p * 2) by lia.
    rewrite Z.div_add by lia. reflexivity.
  - rewrite Pos2Z.inj_xO.
    replace (2 * Z.pos p) with (Z.pos p * 2) by lia.
    rewrite Z.div_mul by lia. reflexivity.
Qed.

Lemma shr_iter_m : forall n mrs,
  0 <= shr_m mrs ->
  shr_m (Nat.iter n shr_1 mrs) = shr_m mrs / 2 ^ Z.of_nat n.
Proof.
  induction n as [| n IH]; intros mrs H.
  - simpl. now rewrite Z.div_1_r.
  - rewrite Nat.iter_succ, shr_1_m.
    + rewrite IH by assumption.
      rewrite Nat2Z.inj_succ, Z.pow_succ_r by lia.
      rewrite Z.div_div by lia. f_equal. lia.
    + rewrite IH by assumption. apply Z.div_pos; lia.
Qed.

Lemma shr_1_exact : forall m,
  0 <= m -> m mod 2 = 0 ->
  shr_1 (Build_shr_record m false false) = Build_shr_record (m / 2) false false.
Proof.
  intros m H0 He.
  destruct m as [| [p | p |] | p]; cbn [shr_1 orb]; try lia; try reflexivity.
  - exfalso. rewrite Pos2Z.inj_xI in He.
    replace (2 * Z.pos p + 1) with (1 + Z.pos p * 2) in He by lia.
    rewrite Z.mod_add in He by lia. discriminate.
  - f_equal. rewrite Pos2Z.inj_xO.
    replace (2 * Z.pos p) with (Z.pos p * 2) by lia.
    now rewrite Z.div_mul by lia.
  - discriminate He.
Qed.

Lemma shr_iter_exact : forall n m,
  0 <= m -> m mod 2 ^ Z.of_nat n = 0 ->
  Nat.iter n shr_1 (Build_shr_record m false false)
    = Build_shr_record (m / 2 ^ Z.of_nat n) false false.
Proof.
  induction n as [| n IH]; intros m H0 He.
  - simpl. now rewrite Z.div_1_r.
  - rewrite Nat2Z.inj_succ, Z.pow_succ_r in * by lia.
    assert (P : 0 < 2 ^ Z.of_nat n) by (apply Z.pow_pos_nonneg; lia).
    apply Z.mod_divide in He; [| lia]. destruct He as [c Hc].
    rewrite Nat.iter_succ, IH; auto.
    + rewrite shr_1_exact.
      * f_equal. rewrite Z.div_div by lia. f_equal. lia.
      * apply Z.div_pos; lia.
      * subst m. replace (c * (2 * 2 ^ Z.of_nat n)) with (c * 2 * 2 ^ Z.of_nat n) by lia.
        rewrite Z.div_mul by lia. now rewrite Z.mod_mul by lia.
    + subst m. replace (c * (2 * 2 ^ Z.of_nat n)) with (c * 2 * 2 ^ Z.of_nat n) by lia.
      now rewrite Z.mod_mul by lia.
Qed.

Lemma round_nearest_even_bounds : forall m l,
  m <= round_nearest_even m l <= m + 1.
Proof.
  intros m [| [| |]]; simpl; try lia.
  destruct (Z.even m); lia.
Qed.

Lemma shr_record_of_loc_m : forall m l, shr_m (shr_record_of_loc m l) = m.
Proof. intros m [| [| |]]; reflexivity. Qed.

Lemma shr_fexp_spec : forall m e l k,
  0 <= m -> 0 <= k ->
  fexp prec emax (Zdigits2 m + e) - e = k ->
  exists X,
    shr_fexp prec emax m e l = (X, e + k)
    /\ shr_m X = m / 2 ^ k
    /\ (l = loc_Exact -> m mod 2 ^ k = 0 ->
        X = Build_shr_record (m / 2 ^ k) false false).
Proof.
  intros m e l k Hm Hk Hf. unfold shr_fexp. rewrite Hf. unfold shr.
  destruct k as [| p | p]; [| | lia].
  - exists (shr_record_of_loc m l). rewrite Z.add_0_r, Z.div_1_r.
    split; [reflexivity |]. split; [apply shr_record_of_loc_m |].
    intros -> _. reflexivity.
  - exists (iter_pos shr_1 p (shr_record_of_loc m l)).
    rewrite iter_pos_nat. split; [reflexivity |].
    rewrite <- (positive_nat_Z p). split.
    + rewrite shr_iter_m; rewrite shr_record_of_loc_m; auto.
    + intros -> He. simpl shr_record_of_loc. now apply shr_iter_exact.
Qed.

Lemma fexp_normal : forall e, -1021 <= e -> fexp prec emax e = e - 53.
Proof. intros e H. unfold fexp, emin, prec, emax. lia. Qed.

(** The rounding step on a mantissa of 53 bits or more: the result is
    the mantissa cut to 53 bits ([m1]) or its successor, at the exponent
    raised by the bits cut ([k]); a successor that reaches 2^53 is
    renormalised. *)
Lemma binary_round_aux_normal : forall sx (mx : positive) ex lx,
  let d := Z.pos (digits2_pos mx) in
  let k := d - 53 in
  let m1 := Z.pos mx / 2 ^ k in
  53 <= d -> -1000 <= ex -> ex + d <= 1000 ->
  exists m' e' m2,
    binary_round_aux prec emax sx (Z.pos mx) ex lx = S754_finite sx m' e'
    /\ Z.pos (digits2_pos m') = 53
    /\ m1 <= m2 <= m1 + 1
    /\ 2 ^ 52 <= m1 < 2 ^ 53
    /\ (lx = loc_Exact -> Z.pos mx mod 2 ^ k = 0 -> m2 = m1)
    /\ ((e' = ex + k /\ Z.pos m' = m2)
        \/ (e' = ex + k + 1 /\ Z.pos m' * 2 = m2)).
Proof.
  intros sx mx ex lx d k m1 Hd Hlo Hhi.
  assert (Hk : 0 <= k) by (unfold k; lia).
  assert (P : 0 < 2 ^ k) by (apply Z.pow_pos_nonneg; lia).
  (* the size of [m1] *)
  assert (B1 : 2 ^ 52 <= m1 < 2 ^ 53).
  { pose proof (digits2_pos_bounds mx) as [Blo Bhi]. fold d in Blo, Bhi.
    replace (d - 1) with (52 + k) in Blo by (unfold k; lia).
    replace d with (53 + k) in Bhi by (unfold k; lia).
    rewrite Z.pow_add_r in Blo, Bhi by lia.
    unfold m1. split.
    - apply Z.div_le_lower_bound; lia.
    - apply Z.div_lt_upper_bound; lia. }
  (* first shift *)
  destruct (shr_fexp_spec (Z.pos mx) ex lx k) as [X [EX [MX XX]]];
    [lia | lia | |].
  { simpl Zdigits2. fold d. rewrite fexp_normal by lia. unfold k. lia. }
  unfold binary_round_aux. rewrite EX.
  set (m2 := round_nearest_even (shr_m X) (loc_of_shr_record X)).
  assert (B2 : m1 <= m2 <= m1 + 1).
  { unfold m2. rewrite MX. apply round_nearest_even_bounds. }
  assert (E2 : lx = loc_Exact -> Z.pos mx mod 2 ^ k = 0 -> m2 = m1).
  { intros Hl He. unfold m2. rewrite (XX Hl He). reflexivity. }
  destruct m2 as [| q | q] eqn:Eq; [lia | | lia].
  destruct (Z.eq_dec (Z.pos q) (2 ^ 53)) as [Htop | Hnot].
  - (* the mantissa overflows: one more shift *)
    destruct (shr_fexp_spec (Z.pos q) (ex + k) loc_Exact 1) as [Y [EY [MY YY]]];
      [lia | lia | |].
    { simpl Zdigits2.
      rewrite (digits2_pos_unique q 54) by (rewrite Htop; simpl; lia).
      rewrite fexp_normal by (unfold k; lia). lia. }
    rewrite EY, MY, Htop. change (2 ^ 53 / 2 ^ 1) with (Z.pos (2 ^ 52)%positive).
    replace (ex + k + 1 <=? emax - prec) with true
      by (symmetry; apply Z.leb_le; unfold emax, prec, k; lia).
    exists (2 ^ 52)%positive, (ex + k + 1), (Z.pos q).
    repeat split; try lia; auto.
  - destruct (shr_fexp_spec (Z.pos q) (ex + k) loc_Exact 0) as [Y [EY [MY YY]]];
      [lia | lia | |].
    { simpl Zdigits2.
      rewrite (digits2_pos_unique q 53) by (simpl; lia).
      rewrite fexp_normal by (unfold k; lia). lia. }
    rewrite EY, MY, Z.add_0_r, Z.div_1_r.
    replace (ex + k <=? emax - prec) with true
      by (symmetry; apply Z.leb_le; unfold emax, prec, k; lia).
    exists q, (ex + k), (Z.pos q).
    repeat split; try lia; auto.
    apply digits2_pos_unique. simpl; lia.
Qed.

(** *** Values: dyadic rationals *)

Lemma pow2_pos : forall e, (0 < pow2 e)%Q.
Proof. intro e. apply Qpower_0_lt. reflexivity. Qed.

Lemma pow2_add : forall a b, (pow2 (a + b) == pow2 a * pow2 b)%Q.
Proof. intros. apply Qpower_plus. discriminate. Qed.

Lemma pow2_nonneg : forall e, 0 <= e -> (pow2 e == inject_Z (2 ^ e))%Q.
Proof. intros e H. unfold pow2. now rewrite Zpower_Qpower. Qed.

(** The value [m * 2^e], brought to an integer by a scale [2^c]. *)
Lemma scale_value : forall m e c,
  0 <= e + c -> 0 <= c ->
  (inject_Z m * pow2 e * inject_Z (2 ^ c) == inject_Z (m * 2 ^ (e + c)))%Q.
Proof.
  intros m e c H1 H2.
  rewrite <- (pow2_nonneg c) by assumption.
  rewrite <- Qmult_assoc, <- pow2_add, pow2_nonneg by assumption.
  now rewrite inject_Z_mult.
Qed.

Lemma pow2_int_pos : forall c, 0 <= c -> (0 < inject_Z (2 ^ c))%Q.
Proof.
  intros c H. rewrite <- pow2_nonneg by assumption. apply pow2_pos.
Qed.

Lemma value_le_frac : forall m e a b c,
  0 < b -> 0 <= c -> 0 <= e + c ->
  m * 2 ^ (e + c) * b <= a * 2 ^ c ->
  (inject_Z m * pow2 e <= inject_Z a / inject_Z b)%Q.
Proof.
  intros m e a b c Hb Hc Hec H.
  assert (Pb : (0 < inject_Z b)%Q) by (rewrite <- (Zlt_Qlt 0); exact Hb).
  apply Qle_shift_div_l; [exact Pb |].
  apply (Qmult_le_r _ _ (inject_Z (2 ^ c))); [now apply pow2_int_pos |].
  setoid_replace (inject_Z m * pow2 e * inject_Z b * inject_Z (2 ^ c))%Q
    with (inject_Z m * pow2 e * inject_Z (2 ^ c) * inject_Z b)%Q by ring.
  rewrite scale_value by assumption.
  rewrite <- !inject_Z_mult, <- Zle_Qle. exact H.
Qed.

Lemma frac_le_value : forall m e a b c,
  0 < b -> 0 <= c -> 0 <= e + c ->
  a * 2 ^ c <= m * 2 ^ (e + c) * b ->
  (inject_Z a / inject_Z b <= inject_Z m * pow2 e)%Q.
Proof.
  intros m e a b c Hb Hc Hec H.
  assert (Pb : (0 < inject_Z b)%Q) by (rewrite <- (Zlt_Qlt 0); exact Hb).
  apply Qle_shift_div_r; [exact Pb |].
  apply (Qmult_le_r _ _ (inject_Z (2 ^ c))); [now apply pow2_int_pos |].
  setoid_replace (inject_Z m * pow2 e * inject_Z b * inject_Z (2 ^ c))%Q
    with (inject_Z m * pow2 e * inject_Z (2 ^ c) * inject_Z b)%Q by ring.
  rewrite scale_value by assumption.
  rewrite <- !inject_Z_mult, <- Zle_Qle. exact H.
Qed.

(** A value rounded to one of the two ends of a bracket that starts at
    2^52 units or more is within a relative [eps] of it. *)
Lemma round_bracket : forall (m1 m2 : Z) (U T r : Q),
  m1 <= m2 <= m1 + 1 -> 2 ^ 52 <= m1 -> (0 < U)%Q ->
  (r == inject_Z m2 * U)%Q ->
  (inject_Z m1 * U <= T)%Q -> (T <= inject_Z (m1 + 1) * U)%Q ->
  (T * (1 - eps) <= r /\ r <= T * (1 + eps))%Q.
Proof.
  intros m1 m2 U T r Hm Hbig HU Hr Hlo Hhi.
  assert (Hs : (inject_Z (m1 + 1) * U == inject_Z m1 * U + U)%Q).
  { rewrite inject_Z_plus. change (inject_Z 1) with 1%Q. ring. }
  rewrite Hs in Hhi.
  assert (Hb : (inject_Z (2 ^ 52) * U <= inject_Z m1 * U)%Q).
  { apply Qmult_le_compat_r; [| lra]. now rewrite <- Zle_Qle. }
  change (inject_Z (2 ^ 52)) with (4503599627370496 # 1)%Q in Hb.
  unfold eps. change (1 # 2 ^ 52)%Q with (1 # 4503599627370496)%Q.
  assert (Hc : m2 = m1 \/ m2 = m1 + 1) by lia.
  destruct Hc as [-> | ->]; [| rewrite Hs in Hr];
    set (A := (inject_Z m1 * U)%Q) in *; lra.
Qed.

(** *** Conversion of an int *)

Lemma iter_xO : forall p c, Z.pos (Pos.iter xO p c) = Z.pos p * 2 ^ Z.pos c.
Proof.
  intros p c. induction c as [| c IH] using Pos.peano_ind.
  - simpl. lia.
  - rewrite Pos.iter_succ, Pos2Z.inj_xO, IH, Pos2Z.inj_succ,
      Z.pow_succ_r by lia. lia.
Qed.

Lemma shl_align_spec : forall p e e',
  e' <= e ->
  exists mz, shl_align p e e' = (mz, e') /\ Z.pos mz = Z.pos p * 2 ^ (e - e').
Proof.
  intros p e e' H. unfold shl_align.
  destruct (e' - e) as [| c | c] eqn:E; [| lia |].
  - exists p. replace e' with e by lia. rewrite Z.sub_diag. split; [reflexivity | simpl; lia].
  - exists (Pos.iter xO p c). split; [reflexivity |].
    rewrite iter_xO. f_equal. f_equal. lia.
Qed.

Lemma normal_bounds : forall x m e,
  normal x m e -> 2 ^ 52 <= Z.pos m < 2 ^ 53.
Proof.
  intros x m e [_ Hd]. pose proof (digits2_pos_bounds m) as H.
  rewrite Hd in H. exact H.
Qed.

(** [float(z)] is exact for [0 < z < 2^53], with a full mantissa. *)
Lemma of_int_spec : forall z,
  0 < z < 2 ^ 53 ->
  exists m e, normal (of_int z) m e /\ -52 <= e <= 0 /\ Z.pos m = z * 2 ^ (- e).
Proof.
  intros z Hz. destruct z as [| p | p]; try lia.
  unfold of_int, binary_normalize, binary_round.
  set (d := Z.pos (digits2_pos p)).
  pose proof (digits2_pos_bounds p) as [Blo Bhi]. fold d in Blo, Bhi.
  assert (Hd : 1 <= d <= 53).
  { split; [unfold d; lia |].
    destruct (Z.le_gt_cases d 53); auto.
    assert (2 ^ 53 <= 2 ^ (d - 1)) by (apply Z.pow_le_mono_r; lia). lia. }
  rewrite Z.add_0_r, fexp_normal by lia.
  destruct (shl_align_spec p 0 (d - 53)) as [mz [Es Hmz]]; [lia |].
  rewrite Es. replace (0 - (d - 53)) with (53 - d) in Hmz by lia.
  assert (Bz : 2 ^ 52 <= Z.pos mz < 2 ^ 53).
  { rewrite Hmz.
    assert (E52 : 2 ^ 52 = 2 ^ (d - 1) * 2 ^ (53 - d))
      by (rewrite <- Z.pow_add_r by lia; f_equal; lia).
    assert (E53 : 2 ^ 53 = 2 ^ d * 2 ^ (53 - d))
      by (rewrite <- Z.pow_add_r by lia; f_equal; lia).
    rewrite E52, E53.
    assert (0 < 2 ^ (53 - d)) by (apply Z.pow_pos_nonneg; lia). nia. }
  assert (Dz : Z.pos (digits2_pos mz) = 53) by (apply digits2_pos_unique; simpl; lia).
  destruct (binary_round_aux_normal false mz (d - 53) loc_Exact)
    as [m' [e' [m2 [Er [Dm [B2 [B1 [Ex Hc]]]]]]]]; rewrite ?Dz; try lia.
  rewrite Dz in *. change (53 - 53) with 0 in *.
  rewrite Z.pow_0_r, Z.div_1_r in *.
  assert (m2 = Z.pos mz) by (apply Ex; [reflexivity | apply Z.mod_1_r]).
  pose proof (digits2_pos_bounds m') as Bm. rewrite Dm in Bm.
  destruct Hc as [[He Hm] | [He Hm]]; [| simpl in Bm; lia].
  exists m', e'. split; [split; assumption |].
  split; [lia |]. rewrite Hm, He. replace (- (d - 53 + 0)) with (53 - d) by lia. lia.
Qed.

(** *** Division and multiplication *)

Lemma value_eq_int : forall m e c z,
  0 <= c -> 0 <= e + c -> m * 2 ^ (e + c) = z * 2 ^ c ->
  (inject_Z m * pow2 e == inject_Z z)%Q.
Proof.
  intros m e c z Hc Hec H.
  apply (Qmult_inj_r _ _ (inject_Z (2 ^ c))).
  - pose proof (pow2_int_pos c Hc). lra.
  - rewrite scale_value by assumption. rewrite H. now rewrite inject_Z_mult.
Qed.

Lemma value_shift : forall m e k,
  0 <= k ->
  (inject_Z m * pow2 (e + k) == inject_Z (m * 2 ^ k) * pow2 e)%Q.
Proof.
  intros m e k Hk.
  rewrite pow2_add, (pow2_nonneg k), inject_Z_mult by assumption. ring.
Qed.

Lemma int_value : forall m e c,
  Z.pos (digits2_pos m) = 53 -> 0 < c < 2 ^ 53 ->
  (inject_Z (Z.pos m) * pow2 e == inject_Z c)%Q ->
  e <= 0 /\ Z.pos m = c * 2 ^ (- e).
Proof.
  intros m e c Hd Hc H.
  pose proof (digits2_pos_bounds m) as Bm. rewrite Hd in Bm.
  destruct (Z.le_gt_cases e 0) as [He | He].
  - split; [exact He |].
    assert (E : (inject_Z (Z.pos m) * pow2 e * inject_Z (2 ^ (- e))
                 == inject_Z c * inject_Z (2 ^ (- e)))%Q) by now rewrite H.
    rewrite scale_value in E by lia.
    rewrite <- inject_Z_mult in E. apply -> inject_Z_injective in E.
    replace (e + - e) with 0 in E by lia.
    rewrite Z.pow_0_r, Z.mul_1_r in E. exact E.
  - exfalso. rewrite pow2_nonneg, <- inject_Z_mult in H by lia.
    apply -> inject_Z_injective in H.
    assert (HX : 2 ^ 1 <= 2 ^ e) by (apply Z.pow_le_mono_r; lia).
    change (2 ^ 1) with 2 in HX. change (2 ^ (53 - 1)) with (2 ^ 52) in Bm.
    set (X := 2 ^ e) in *. nia.
Qed.

Lemma new_location_zero : forall nb, new_location nb 0 = loc_Exact.
Proof.
  intro nb. unfold new_location, new_location_even, new_location_odd.
  destruct (Z.even nb); reflexivity.
Qed.

(** [L / n] for two positive ints: within [eps] of the quotient, and the
    quotient itself when [n] divides [L]. *)
Lemma div_spec : forall x y mL eL mn en L n,
  normal x mL eL -> -52 <= eL <= 0 -> Z.pos mL = L * 2 ^ (- eL) ->
  normal y mn en -> -52 <= en <= 0 -> Z.pos mn = n * 2 ^ (- en) ->
  0 < L -> 0 < n ->
  exists m e r,
    normal (SFdiv prec emax x y) m e
    /\ -106 <= e <= 54
    /\ (r == inject_Z (Z.pos m) * pow2 e)%Q
    /\ (inject_Z L / inject_Z n * (1 - eps) <= r)%Q
    /\ (r <= inject_Z L / inject_Z n * (1 + eps))%Q
    /\ (L mod n = 0 -> (r == inject_Z (L / n))%Q).
Proof.
  intros x y mL eL mn en L n [Ex DL] HeL HmL [Ey Dn] Hen Hmn HL Hn.
  subst x y. unfold SFdiv, SFdiv_core_binary.
  cbn [Zdigits2]. rewrite DL, Dn.
  rewrite fexp_normal by lia.
  replace (Z.min (53 + eL - (53 + en) - 53) (eL - en)) with (eL - en - 53) by lia.
  replace (eL - en - (eL - en - 53)) with 53 by lia.
  rewrite Z.shiftl_mul_pow2 by lia.
  set (a := - eL) in *. set (b := - en) in *.
  assert (Ha : eL = - a /\ 0 <= a <= 52) by (unfold a; lia).
  assert (Hb : en = - b /\ 0 <= b <= 52) by (unfold b; lia).
  assert (Pa : 0 < 2 ^ a) by (apply Z.pow_pos_nonneg; lia).
  assert (Pb : 0 < 2 ^ b) by (apply Z.pow_pos_nonneg; lia).
  pose proof (digits2_pos_bounds mL) as BL. rewrite DL in BL.
  pose proof (digits2_pos_bounds mn) as Bn. rewrite Dn in Bn.
  pose proof (Z_div_mod (Z.pos mL * 2 ^ 53) (Z.pos mn) eq_refl) as Hdm.
  destruct (Z.div_eucl (Z.pos mL * 2 ^ 53) (Z.pos mn)) as [q r] eqn:Eqr.
  destruct Hdm as [Hq Hr].
  change (2 ^ (53 - 1)) with (2 ^ 52) in BL, Bn.
  assert (Bq : 2 ^ 52 <= q < 2 ^ 54).
  { split.
    - destruct (Z.le_gt_cases (2 ^ 52) q) as [| Hlt]; auto. exfalso.
      assert (Z.pos mn * q + r < Z.pos mn * 2 ^ 52) by nia.
      assert (Z.pos mn * 2 ^ 52 <= 2 ^ 53 * 2 ^ 52) by nia.
      assert (2 ^ 52 * 2 ^ 53 <= Z.pos mL * 2 ^ 53) by nia. lia.
    - destruct (Z.le_gt_cases (2 ^ 54) q) as [Hge |]; auto. exfalso.
      assert (2 ^ 52 * 2 ^ 54 <= Z.pos mn * q) by nia.
      assert (Z.pos mL * 2 ^ 53 < 2 ^ 53 * 2 ^ 53) by nia. lia. }
  destruct q as [| qp | qp]; try (simpl in Bq; lia).
  set (dq := Z.pos (digits2_pos qp)).
  assert (Hdq : 53 <= dq <= 54).
  { pose proof (digits2_pos_bounds qp) as [Qlo Qhi]. fold dq in Qlo, Qhi.
    split.
    - destruct (Z.le_gt_cases 53 dq); auto.
      assert (2 ^ dq <= 2 ^ 52) by (apply Z.pow_le_mono_r; lia). lia.
    - destruct (Z.le_gt_cases dq 54); auto.
      assert (2 ^ 54 <= 2 ^ (dq - 1)) by (apply Z.pow_le_mono_r; lia). lia. }
  destruct (binary_round_aux_normal (xorb false false) qp (eL - en - 53)
              (new_location (Z.pos mn) r))
    as [m' [e' [m2 [Er [Dm [B2 [B1 [Exc Hc]]]]]]]]; fold dq; try lia.
  fold dq in B2, B1, Exc, Hc. set (k := dq - 53) in *.
  set (m1 := Z.pos qp / 2 ^ k) in *.
  assert (Hk01 : 0 <= k <= 1) by (unfold k; lia).
  assert (Pk : 0 < 2 ^ k) by (apply Z.pow_pos_nonneg; lia).
  assert (Hm1 : m1 * 2 ^ k <= Z.pos qp < (m1 + 1) * 2 ^ k).
  { unfold m1. pose proof (Z.mul_div_le (Z.pos qp) (2 ^ k) Pk).
    pose proof (Z.mul_succ_div_gt (Z.pos qp) (2 ^ k) Pk). lia. }
  set (U := pow2 (eL - en - 53 + k)).
  exists m', e', (inject_Z m2 * U)%Q.
  rewrite Er. simpl xorb.
  split; [split; [reflexivity | exact Dm] |].
  split; [lia |].
  split.
  { destruct Hc as [[-> <-] | [-> <-]]; [reflexivity |].
    unfold U. rewrite (pow2_add _ 1), inject_Z_mult.
    change (pow2 1) with (2 # 1)%Q. change (inject_Z 2) with (2 # 1)%Q. ring. }
  assert (S1 : 2 ^ (eL - en - 53 + k + (a + 53)) = 2 ^ b * 2 ^ k).
  { rewrite <- Z.pow_add_r by lia. f_equal. lia. }
  assert (S2 : 2 ^ (a + 53) = 2 ^ a * 2 ^ 53) by (apply Z.pow_add_r; lia).
  assert (Hbr : (inject_Z L / inject_Z n * (1 - eps) <= inject_Z m2 * U
                 /\ inject_Z m2 * U <= inject_Z L / inject_Z n * (1 + eps))%Q).
  { apply (round_bracket m1 m2 U); auto; try lia.
    - apply pow2_pos.
    - reflexivity.
    - apply (value_le_frac _ _ _ _ (a + 53)); try lia.
      rewrite S1, S2.
      assert (n * 2 ^ b * (m1 * 2 ^ k) <= n * 2 ^ b * Z.pos qp)
        by (apply Z.mul_le_mono_nonneg_l; nia).
      rewrite <- Hmn in *. rewrite (Z.mul_assoc L), <- HmL. nia.
    - apply (frac_le_value _ _ _ _ (a + 53)); try lia.
      rewrite S1, S2.
      assert (n * 2 ^ b * (Z.pos qp + 1) <= n * 2 ^ b * ((m1 + 1) * 2 ^ k))
        by (apply Z.mul_le_mono_nonneg_l; nia).
      rewrite <- Hmn in *. rewrite (Z.mul_assoc L), <- HmL. nia. }
  split; [apply Hbr |]. split; [apply Hbr |].
  (* exact quotients *)
  intro Hmod. apply Z.mod_divide in Hmod; [| lia].
  destruct Hmod as [c Hcn]. subst L. rewrite Z.div_mul by lia.
  assert (Hc0 : 0 < c) by nia.
  assert (S3 : 2 ^ (a + 53) = 2 ^ b * 2 ^ (a + 53 - b)).
  { rewrite <- Z.pow_add_r by lia. f_equal. lia. }
  assert (Pw : 2 <= 2 ^ (a + 53 - b)).
  { change 2 with (2 ^ 1) at 1. apply Z.pow_le_mono_r; lia. }
  assert (Hq' : Z.pos qp = c * 2 ^ (a + 53 - b) /\ r = 0).
  { assert (E : Z.pos mn * (c * 2 ^ (a + 53 - b)) + 0
                = Z.pos mn * Z.pos qp + r).
    { assert (S5 : 2 ^ a * 2 ^ 53 = 2 ^ b * 2 ^ (a + 53 - b))
        by (rewrite <- S2; exact S3).
      rewrite <- Hq, HmL, Hmn, Z.add_0_r.
      transitivity (c * n * (2 ^ a * 2 ^ 53)); [rewrite S5 |]; ring. }
    apply Z.div_mod_unique in E; [destruct E; split; congruence | lia | lia]. }
  destruct Hq' as [Hqc Hr0]. subst r.
  assert (Hk1 : k <= a + 53 - b) by lia.
  assert (S4 : 2 ^ (a + 53 - b) = 2 ^ (a + 53 - b - k) * 2 ^ k).
  { rewrite <- Z.pow_add_r by lia. f_equal. lia. }
  assert (Hm2 : m2 = m1).
  { apply Exc; [apply new_location_zero |].
    rewrite Hqc, S4, Z.mul_assoc. apply Z.mod_mul. lia. }
  rewrite Hm2.
  apply (value_eq_int _ _ (a + 53 - b)); try lia.
  replace (eL - en - 53 + k + (a + 53 - b)) with k by lia.
  unfold m1. rewrite Hqc at 1. rewrite S4 at 1. rewrite Z.mul_assoc, Z.div_mul by lia.
  rewrite S4. ring.
Qed.

(** [j * x] for a positive int [j]: within [eps] of the product, and
    the product itself when it is an integer below 2^53. *)
Lemma mul_spec : forall x y mj ej j ms es (sv : Q),
  normal x mj ej -> -52 <= ej <= 0 -> Z.pos mj = j * 2 ^ (- ej) -> 0 < j ->
  normal y ms es -> -200 <= es <= 200 ->
  (sv == inject_Z (Z.pos ms) * pow2 es)%Q ->
  exists m e r,
    normal (SFmul prec emax x y) m e
    /\ (r == inject_Z (Z.pos m) * pow2 e)%Q
    /\ (inject_Z j * sv * (1 - eps) <= r)%Q
    /\ (r <= inject_Z j * sv * (1 + eps))%Q
    /\ (forall c, (sv == inject_Z c)%Q -> 0 < j * c < 2 ^ 53 ->
        (r == inject_Z (j * c))%Q).
Proof.
  intros x y mj ej j ms es sv [Ex Dj] Hej Hmj Hj [Ey Ds] Hes HS.
  subst x y. unfold SFmul.
  set (a := - ej) in *.
  assert (Ha : ej = - a /\ 0 <= a <= 52) by (unfold a; lia).
  pose proof (digits2_pos_bounds mj) as Bj. rewrite Dj in Bj.
  pose proof (digits2_pos_bounds ms) as Bs. rewrite Ds in Bs.
  change (2 ^ (53 - 1)) with (2 ^ 52) in Bj, Bs.
  set (M := (mj * ms)%positive).
  assert (HM : Z.pos M = Z.pos mj * Z.pos ms) by apply Pos2Z.inj_mul.
  assert (BM : 2 ^ 104 <= Z.pos M < 2 ^ 106).
  { rewrite HM. change (2 ^ 104) with (2 ^ 52 * 2 ^ 52).
    change (2 ^ 106) with (2 ^ 53 * 2 ^ 53). nia. }
  set (dM := Z.pos (digits2_pos M)).
  assert (HdM : 105 <= dM <= 106).
  { pose proof (digits2_pos_bounds M) as [Qlo Qhi]. fold dM in Qlo, Qhi.
    split.
    - destruct (Z.le_gt_cases 105 dM); auto.
      assert (2 ^ dM <= 2 ^ 104) by (apply Z.pow_le_mono_r; lia). lia.
    - destruct (Z.le_gt_cases dM 106); auto.
      assert (2 ^ 106 <= 2 ^ (dM - 1)) by (apply Z.pow_le_mono_r; lia). lia. }
  destruct (binary_round_aux_normal (xorb false false) M (ej + es) loc_Exact)
    as [m' [e' [m2 [Er [Dm [B2 [B1 [Exc Hc]]]]]]]]; fold dM; try lia.
  fold dM in B2, B1, Exc, Hc. set (k := dM - 53) in *.
  set (m1 := Z.pos M / 2 ^ k) in *.
  assert (Hk : 52 <= k <= 53) by (unfold k; lia).
  assert (Pk : 0 < 2 ^ k) by (apply Z.pow_pos_nonneg; lia).
  assert (Hm1 : m1 * 2 ^ k <= Z.pos M < (m1 + 1) * 2 ^ k).
  { unfold m1. pose proof (Z.mul_div_le (Z.pos M) (2 ^ k) Pk).
    pose proof (Z.mul_succ_div_gt (Z.pos M) (2 ^ k) Pk). lia. }
  set (U := pow2 (ej + es + k)).
  exists m', e', (inject_Z m2 * U)%Q.
  rewrite Er. simpl xorb.
  split; [split; [reflexivity | exact Dm] |].
  split.
  { destruct Hc as [[-> <-] | [-> <-]]; [reflexivity |].
    unfold U. rewrite (pow2_add _ 1), inject_Z_mult.
    change (pow2 1) with (2 # 1)%Q. change (inject_Z 2) with (2 # 1)%Q. ring. }
  (* the exact product *)
  assert (Vj : (inject_Z (Z.pos mj) * pow2 ej == inject_Z j)%Q).
  { apply (value_eq_int _ _ a); try lia.
    replace (ej + a) with 0 by lia. rewrite Hmj. simpl. ring. }
  assert (VT : (inject_Z j * sv == inject_Z (Z.pos M) * pow2 (ej + es))%Q).
  { rewrite HS, <- Vj, HM, inject_Z_mult, pow2_add. ring. }
  assert (Hbr : (inject_Z j * sv * (1 - eps) <= inject_Z m2 * U
                 /\ inject_Z m2 * U <= inject_Z j * sv * (1 + eps))%Q).
  { apply (round_bracket m1 m2 U); auto; try lia.
    - apply pow2_pos.
    - reflexivity.
    - rewrite VT. unfold U. rewrite (value_shift m1 (ej + es) k) by lia.
      apply Qmult_le_compat_r; [| pose proof (pow2_pos (ej + es)); lra].
      rewrite <- Zle_Qle. lia.
    - rewrite VT. unfold U. rewrite (value_shift (m1 + 1) (ej + es) k) by lia.
      apply Qmult_le_compat_r; [| pose proof (pow2_pos (ej + es)); lra].
      rewrite <- Zle_Qle. lia. }
  split; [apply Hbr |]. split; [apply Hbr |].
  intros c HSc Hjc.
  assert (Hc0 : 0 < c < 2 ^ 53) by nia.
  destruct (int_value ms es c Ds Hc0) as [Hes0 Hms]; [now rewrite <- HS |].
  set (b := - es) in *.
  assert (Hb : es = - b /\ 0 <= b) by (unfold b; lia).
  assert (HMc : Z.pos M = j * c * 2 ^ (a + b)).
  { rewrite HM, Hmj, Hms, Z.pow_add_r by lia. ring. }
  assert (Pab : 0 < 2 ^ (a + b)) by (apply Z.pow_pos_nonneg; lia).
  assert (Hkab : k <= a + b).
  { destruct (Z.le_gt_cases k (a + b)); auto. exfalso.
    assert (2 ^ (a + b + 1) <= 2 ^ k) by (apply Z.pow_le_mono_r; lia).
    assert (E1 : 2 ^ (a + b + 1) = 2 ^ (a + b) * 2)
      by (rewrite Z.pow_add_r by lia; reflexivity).
    assert (E2 : 2 ^ (52 + k) = 2 ^ 52 * 2 ^ k) by (apply Z.pow_add_r; lia).
    pose proof (digits2_pos_bounds M) as [Qlo _]. fold dM in Qlo.
    replace (dM - 1) with (52 + k) in Qlo by (unfold k; lia).
    rewrite E2, HMc in Qlo. nia. }
  assert (S4 : 2 ^ (a + b) = 2 ^ (a + b - k) * 2 ^ k).
  { rewrite <- Z.pow_add_r by lia. f_equal. lia. }
  assert (Hm2 : m2 = m1).
  { apply Exc; [reflexivity |].
    rewrite HMc, S4, Z.mul_assoc. apply Z.mod_mul. lia. }
  rewrite Hm2.
  apply (value_eq_int _ _ (a + b - k)); try lia.
  replace (ej + es + k + (a + b - k)) with 0 by lia.
  unfold m1. rewrite HMc, S4, Z.mul_assoc, Z.div_mul by lia.
  simpl (2 ^ 0). ring.
Qed.

Lemma pow2_neg : forall e,
  e <= 0 -> (pow2 e == / inject_Z (2 ^ (- e)))%Q.
Proof.
  intros e He.
  assert (P : (0 < inject_Z (2 ^ (- e)))%Q) by (apply pow2_int_pos; lia).
  apply (Qmult_inj_r _ _ (inject_Z (2 ^ (- e)))); [lra |].
  rewrite (Qmult_comm (/ _)), Qmult_inv_r by lra.
  setoid_replace (pow2 e * inject_Z (2 ^ (- e)))%Q
    with (inject_Z 1 * pow2 e * inject_Z (2 ^ (- e)))%Q
    by (change (inject_Z 1) with 1%Q; ring).
  rewrite scale_value by lia.
  replace (e + - e) with 0 by lia. reflexivity.
Qed.

(** [int(x)] is the floor of the value of a positive float. *)
Lemma to_int_floor : forall x m e (r : Q),
  normal x m e -> (r == inject_Z (Z.pos m) * pow2 e)%Q ->
  to_int x = Some (Qfloor r).
Proof.
  intros x m e r [-> _] Hr. unfold to_int. simpl cond_Zopp. f_equal.
  rewrite Hr. destruct (Z.leb_spec 0 e) as [He | He].
  - rewrite pow2_nonneg, <- inject_Z_mult by assumption.
    now rewrite Qfloor_Z.
  - rewrite Zdiv_Qdiv. apply Qfloor_comp.
    unfold Qdiv. rewrite pow2_neg by lia. reflexivity.
Qed.

(** [z < x], on the value of a positive float. *)
Lemma int_lt_value : forall x m e (r : Q) z,
  normal x m e -> (r == inject_Z (Z.pos m) * pow2 e)%Q ->
  int_lt z x = true <-> (inject_Z z < r)%Q.
Proof.
  intros x m e r z [-> _] Hr. unfold int_lt. simpl cond_Zopp. rewrite Hr.
  destruct (Z.leb_spec 0 e) as [He | He].
  - rewrite pow2_nonneg, <- inject_Z_mult by assumption.
    rewrite Z.ltb_lt, Zlt_Qlt. reflexivity.
  - rewrite Z.ltb_lt.
    assert (P : (0 < inject_Z (2 ^ (- e)))%Q) by (apply pow2_int_pos; lia).
    rewrite <- (Qmult_lt_r _ _ _ P), scale_value by lia.
    replace (e + - e) with 0 by lia. simpl (2 ^ 0). rewrite Z.mul_1_r.
    rewrite <- inject_Z_mult, <- Zlt_Qlt. reflexivity.
Qed.

(** *** The error of a cut *)

(** Two roundings of [j * (L / n)], seen from [n]: the product stays
    within one unit of [j * L] as long as [j * L <= 2^50]. *)
Lemma two_roundings : forall (a b l sv X : Q),
  (0 <= a)%Q -> (0 < b)%Q -> (0 <= l)%Q ->
  (a * l <= 1125899906842624)%Q ->
  (l / b * (1 - eps) <= sv)%Q -> (sv <= l / b * (1 + eps))%Q ->
  (a * sv * (1 - eps) <= X)%Q -> (X <= a * sv * (1 + eps))%Q ->
  (a * l - 1 < b * X /\ b * X < a * l + 1)%Q.
Proof.
  intros a b l sv X Ha Hb Hl Hal HS1 HS2 HX1 HX2.
  assert (Hlb : (b * (l / b) == l)%Q) by (field; lra).
  unfold eps in *. change (1 # 2 ^ 52)%Q with (1 # 4503599627370496)%Q in *.
  set (e := (1 # 4503599627370496)%Q) in *.
  assert (W1 : (l * (1 - e) <= b * sv)%Q).
  { setoid_replace (l * (1 - e))%Q with (b * (l / b * (1 - e)))%Q
      by (field; lra).
    apply (proj2 (Qmult_le_l _ _ _ Hb)); assumption. }
  assert (W2 : (b * sv <= l * (1 + e))%Q).
  { setoid_replace (l * (1 + e))%Q with (b * (l / b * (1 + e)))%Q
      by (field; lra).
    apply (proj2 (Qmult_le_l _ _ _ Hb)); assumption. }
  assert (V1 : (a * l * (1 - e) <= a * (b * sv))%Q).
  { rewrite <- Qmult_assoc. rewrite !(Qmult_comm a).
    apply Qmult_le_compat_r; assumption. }
  assert (V2 : (a * (b * sv) <= a * l * (1 + e))%Q).
  { rewrite <- (Qmult_assoc a l). rewrite !(Qmult_comm a).
    apply Qmult_le_compat_r; assumption. }
  assert (Y1 : (a * (b * sv) * (1 - e) <= b * X)%Q).
  { setoid_replace (a * (b * sv) * (1 - e))%Q with (b * (a * sv * (1 - e)))%Q
      by ring.
    apply (proj2 (Qmult_le_l _ _ _ Hb)); assumption. }
  assert (Y2 : (b * X <= a * (b * sv) * (1 + e))%Q).
  { setoid_replace (a * (b * sv) * (1 + e))%Q with (b * (a * sv * (1 + e)))%Q
      by ring.
    apply (proj2 (Qmult_le_l _ _ _ Hb)); assumption. }
  assert (P0 : (0 <= a * l)%Q) by (apply Qmult_le_0_compat; assumption).
  set (P := (a * l)%Q) in *. set (V := (a * (b * sv))%Q) in *.
  set (Y := (b * X)%Q) in *.
  unfold e in *. split; lra.
Qed.

(** [sub_chunk_len] for [1 <= n <= L < 2^53]. *)
Lemma sub_chunk_len_spec : forall L n,
  1 <= n <= L -> L < 2 ^ 53 ->
  exists s ms es sv,
    sub_chunk_len L n = Some s
    /\ normal s ms es /\ -106 <= es <= 54
    /\ (sv == inject_Z (Z.pos ms) * pow2 es)%Q
    /\ (inject_Z L / inject_Z n * (1 - eps) <= sv)%Q
    /\ (sv <= inject_Z L / inject_Z n * (1 + eps))%Q
    /\ (L mod n = 0 -> (sv == inject_Z (L / n))%Q).
Proof.
  intros L n Hn HL. unfold sub_chunk_len, truediv.
  destruct (Z.eqb_spec n 0) as [| _]; [lia |].
  destruct (of_int_spec L) as [mL [eL [NL [HeL HmL]]]]; [lia |].
  destruct (of_int_spec n) as [mn [en [Nn [Hen Hmn]]]]; [lia |].
  destruct (div_spec _ _ _ _ _ _ L n NL HeL HmL Nn Hen Hmn)
    as [m [e [r [N [He [Hr [H1 [H2 H3]]]]]]]]; try lia.
  exists (SFdiv prec emax (of_int L) (of_int n)), m, e, r. auto 10.
Qed.

(** The j-th cut [B] is [j * L / n] rounded down, or one less where that
    quotient is an integer that the roundings fell short of; [int(min(.,
    L))] on the same product is [B] cut at [L]. *)
Lemma cut_spec : forall L n j s ms es sv,
  1 <= n <= L -> n * L <= 2 ^ 50 -> 0 <= j <= n ->
  normal s ms es -> -106 <= es <= 54 ->
  (sv == inject_Z (Z.pos ms) * pow2 es)%Q ->
  (inject_Z L / inject_Z n * (1 - eps) <= sv)%Q ->
  (sv <= inject_Z L / inject_Z n * (1 + eps))%Q ->
  (L mod n = 0 -> (sv == inject_Z (L / n))%Q) ->
  exists B,
    start_ms s j = Some B
    /\ int_of_number (min_float_int (mul_int j s) L) = Some (Z.min B L)
    /\ (n * B <= j * L <= n * (B + 1) /\ 0 <= B)
    /\ (L mod n = 0 -> B = j * (L / n)).
Proof.
  intros L n j s ms es sv Hn HnL Hj Ns Hes HS HS1 HS2 HSx.
  unfold start_ms, mul_int.
  destruct (Z.eq_dec j 0) as [-> | Hj0].
  - (* 0 * sub_chunk_len *)
    destruct Ns as [-> _]. exists 0. cbn.
    unfold min_float_int, int_lt.
    destruct (Z.ltb_spec L 0); [lia |]. cbn.
    repeat split; try lia. f_equal. lia.
  - destruct (of_int_spec j) as [mj [ej [Nj [Hej Hmj]]]]; [nia |].
    destruct (mul_spec (of_int j) s mj ej j ms es sv Nj Hej Hmj)
      as [m [e [X [N [HX [HX1 [HX2 HXx]]]]]]]; auto; try lia.
    exists (Qfloor X).
    rewrite (to_int_floor _ _ _ X N HX).
    assert (PL : (0 <= inject_Z L)%Q) by (rewrite <- (Zle_Qle 0); lia).
    assert (Pn : (0 < inject_Z n)%Q) by (rewrite <- (Zlt_Qlt 0); lia).
    assert (Pj : (0 <= inject_Z j)%Q) by (rewrite <- (Zle_Qle 0); lia).
    destruct (two_roundings (inject_Z j) (inject_Z n) (inject_Z L) sv X)
      as [T1 T2]; auto.
    { rewrite <- inject_Z_mult.
      change (1125899906842624)%Q with (inject_Z (2 ^ 50)).
      rewrite <- Zle_Qle. nia. }
    pose proof (Qfloor_le X) as F1. pose proof (Qlt_floor X) as F2.
    assert (G1 : (inject_Z n * inject_Z (Qfloor X) <= inject_Z n * X)%Q)
      by (apply (proj2 (Qmult_le_l _ _ _ Pn)); exact F1).
    assert (G2 : (inject_Z n * X < inject_Z n * inject_Z (Qfloor X + 1))%Q)
      by (apply (proj2 (Qmult_lt_l _ _ _ Pn)); exact F2).
    assert (Z1 : n * Qfloor X < j * L + 1).
    { rewrite Zlt_Qlt, inject_Z_plus, !inject_Z_mult.
      change (inject_Z 1) with 1%Q. lra. }
    assert (Z2 : j * L - 1 < n * (Qfloor X + 1)).
    { rewrite Zlt_Qlt. unfold Z.sub. rewrite inject_Z_plus, !inject_Z_mult.
      change (inject_Z (- (1))) with (- (1))%Q. lra. }
    split; [reflexivity |]. split; [| split; [split; [lia | nia] |]].
    + unfold min_float_int.
      destruct (int_lt L (SFmul prec emax (of_int j) s)) eqn:Elt; cbn.
      * apply (int_lt_value _ _ _ X L N HX) in Elt.
        f_equal. apply Qlt_le_weak, Qfloor_resp_le in Elt.
        rewrite Qfloor_Z in Elt. lia.
      * rewrite (to_int_floor _ _ _ X N HX). f_equal.
        assert (Hle : (X <= inject_Z L)%Q).
        { apply Qnot_lt_le. intro C.
          apply (int_lt_value _ _ _ X L N HX) in C. congruence. }
        apply Qfloor_resp_le in Hle. rewrite Qfloor_Z in Hle. lia.
    + intro Hmod. specialize (HXx (L / n) (HSx Hmod)).
      assert (Hc : L = n * (L / n)).
      { rewrite (Z.div_mod L n) at 1 by lia. lia. }
      rewrite HXx by nia. apply Qfloor_Z.
Qed.

(** ** The splitter: segmentation *)

(** C3: the segmentation step never yields the empty list, and when
    [split_on_silence] finds no segment the whole audio is the only
    one. *)
Theorem C3_at_least_one_segment :
  forall (sample : Type) split_on_silence (audio : list sample)
         min_silence_len silence_thresh,
  segments split_on_silence audio min_silence_len silence_thresh <> []
  /\ (split_on_silence audio min_silence_len silence_thresh 300 = [] ->
      segments split_on_silence audio min_silence_len silence_thresh
        = [audio]).
Proof.
  intros sample sos audio msl st. unfold segments.
  destruct (sos audio msl st 300); split;
    try discriminate; intros; try reflexivity; discriminate.
Qed.

Lemma C3_witness :
  segments no_silence (frames 50) DEFAULT_MIN_SILENCE_LEN
    DEFAULT_SILENCE_THRESH = [frames 50].
Proof.
  exact (proj2 (C3_at_least_one_segment unit no_silence (frames 50)
                  DEFAULT_MIN_SILENCE_LEN DEFAULT_SILENCE_THRESH) eq_refl).
Defined.

(** ** The splitter: numbering of the exported chunks *)

Section ExportLoop.

Variable sample : Type.
Variable export_ok : nat -> bool.

Lemma export_piece_numbered : forall (st : split_state sample) piece,
  numbered st -> numbered (export_piece export_ok st piece).
Proof.
  intros st piece [Hn Hl]. unfold export_piece, numbered.
  destruct (export_ok (exports st));
    cbn [processed_chunks_paths total_chunks]; auto.
  rewrite map_app, Hn, length_app, Hl, seq_S, map_app. simpl.
  split; [reflexivity | lia].
Qed.

Lemma export_piece_audio : forall (st : split_state sample) piece,
  map snd (processed_chunks_paths (export_piece export_ok st piece))
    = map snd (processed_chunks_paths st)
      ++ exported export_ok (exports st) [piece]
  /\ exports (export_piece export_ok st piece) = S (exports st).
Proof.
  intros st piece. unfold export_piece. simpl.
  destruct (export_ok (exports st)); simpl.
  - now rewrite map_app.
  - now rewrite app_nil_r.
Qed.

Lemma exported_app : forall (A : Type) (ps qs : list A) k,
  exported export_ok k (ps ++ qs)
    = exported export_ok k ps
      ++ exported export_ok (k + List.length ps) qs.
Proof.
  induction ps as [| p ps IH]; intros qs k; simpl.
  - now rewrite Nat.add_0_r.
  - rewrite IH. replace (S k + List.length ps)%nat
      with (k + S (List.length ps))%nat by lia.
    destruct (export_ok k); reflexivity.
Qed.

Lemma export_all : forall ps (st : split_state sample),
  numbered st ->
  let st' := fold_left (export_piece export_ok) ps st in
  numbered st'
  /\ map snd (processed_chunks_paths st')
       = map snd (processed_chunks_paths st)
         ++ exported export_ok (exports st) ps
  /\ exports st' = (exports st + List.length ps)%nat.
Proof.
  induction ps as [| p ps IH]; intros st Hn; simpl.
  - rewrite app_nil_r, Nat.add_0_r. auto.
  - destruct (IH (export_piece export_ok st p)
                (export_piece_numbered st p Hn)) as [Hn' [Ha He]].
    destruct (export_piece_audio st p) as [Ha1 He1].
    split; [exact Hn' |]. split.
    + rewrite Ha, Ha1, He1, <- app_assoc. f_equal.
      simpl. destruct (export_ok (exports st)); reflexivity.
    + rewrite He, He1. lia.
Qed.

Lemma process_chunks_spec : forall limit chunks (st : split_state sample),
  numbered st ->
  match process_chunks export_ok limit chunks st,
        all_pieces limit chunks with
  | Some st', Some ps =>
      numbered st'
      /\ map snd (processed_chunks_paths st')
           = map snd (processed_chunks_paths st)
             ++ exported export_ok (exports st) ps
  | None, None => True
  | _, _ => False
  end.
Proof.
  intros limit. induction chunks as [| c chunks IH]; intros st Hn; simpl.
  - rewrite app_nil_r. auto.
  - destruct (pieces limit c) as [ps |]; simpl; [| exact I].
    destruct (export_all ps st Hn) as [Hn' [Ha He]].
    specialize (IH _ Hn').
    destruct (process_chunks export_ok limit chunks
                (fold_left (export_piece export_ok) ps st)) as [st' |];
      destruct (all_pieces limit chunks) as [qs |]; simpl; auto.
    destruct IH as [Hn'' Ha'']. split; [exact Hn'' |].
    now rewrite Ha'', Ha, He, exported_app, <- app_assoc.
Qed.

End ExportLoop.

(** C6: the paths returned by [split_audio_intelligently] are
    [chunk_0.wav], [chunk_1.wav], ... without a gap, whatever was dropped
    and whichever exports failed; the audio under them is, in the order
    of the segments and of the time slices within a segment, what was
    exported with success. *)
Theorem C6_chunk_numbers_contiguous :
  forall (sample : Type) split_on_silence export_ok
         (audio : option (list sample)) min_silence_len silence_thresh
         chunk_length_limit_ms,
  let out := split_audio_intelligently split_on_silence export_ok audio
               min_silence_len silence_thresh chunk_length_limit_ms in
  map fst out = map chunk_filename (seq 0 (List.length out))
  /\ map snd out =
     match audio with
     | Some a =>
         match all_pieces chunk_length_limit_ms
                 (segments split_on_silence a min_silence_len
                    silence_thresh) with
         | Some ps => exported export_ok 0 ps
         | None => []
         end
     | None => []
     end.
Proof.
  intros sample sos eok audio msl st limit out. subst out.
  unfold split_audio_intelligently.
  destruct audio as [a |]; [| split; reflexivity].
  assert (H0 : numbered (@initial_state sample))
    by (split; reflexivity).
  pose proof (process_chunks_spec sample eok limit (segments sos a msl st)
                initial_state H0) as H.
  destruct (process_chunks eok limit (segments sos a msl st) initial_state)
    as [st' |];
    destruct (all_pieces limit (segments sos a msl st)) as [ps |];
    try contradiction; [| split; reflexivity].
  destruct H as [[Hn Hl] Ha]. split.
  - now rewrite Hl.
  - exact Ha.
Qed.

(** ** The time split: where the cuts fall *)

Lemma mapM_map : forall (A B : Type) (f : A -> option B) (g : A -> B) l,
  (forall x, In x l -> f x = Some (g x)) -> mapM f l = Some (map g l).
Proof.
  induction l as [| a l IH]; intro H; simpl; [reflexivity |].
  rewrite (H a) by (now left). simpl.
  rewrite IH by (intros; apply H; now right). reflexivity.
Qed.

Lemma mapM_In : forall (A B : Type) (f : A -> option B) l bs b,
  mapM f l = Some bs -> In b bs -> exists x, In x l /\ f x = Some b.
Proof.
  induction l as [| a l IH]; intros bs b H Hb; simpl in H.
  - injection H as <-. destruct Hb.
  - destruct (f a) as [b0 |] eqn:Ea; simpl in H; [| discriminate].
    destruct (mapM f l) as [bs0 |] eqn:El; simpl in H; [| discriminate].
    injection H as <-. destruct Hb as [<- | Hb].
    + exists a. split; [now left | assumption].
    + destruct (IH bs0 b eq_refl Hb) as [x [Hx Hf]].
      exists x. split; [now right | assumption].
Qed.

Lemma in_range_iff : forall n j, In j (range n) <-> 0 <= j < n.
Proof.
  intros n j. unfold range. rewrite in_map_iff. split.
  - intros [k [<- Hk]]. apply in_seq in Hk. lia.
  - intros H. exists (Z.to_nat j). split; [lia |]. apply in_seq. lia.
Qed.

Lemma length_range : forall n, 0 <= n -> Z.of_nat (List.length (range n)) = n.
Proof.
  intros n H. unfold range. rewrite length_map, length_seq. lia.
Qed.

Lemma filter_all : forall (A : Type) (f : A -> bool) l,
  (forall x, In x l -> f x = true) -> filter f l = l.
Proof.
  induction l as [| a l IH]; intro H; simpl; [reflexivity |].
  rewrite (H a) by (now left). f_equal. apply IH. intros; apply H; now right.
Qed.

(** The count is the ceiling of [L / limit]. *)
Lemma num_sub_chunks_ceiling : forall L limit,
  0 < limit ->
  let n := (L + limit - 1) / limit in
  (n - 1) * limit < L <= n * limit.
Proof.
  intros L limit H n.
  pose proof (Z.div_mod (L + limit - 1) limit) as E.
  pose proof (Z.mod_pos_bound (L + limit - 1) limit H) as B.
  fold n in E. nia.
Qed.

(** Two cuts that are each within one unit of [j * L / n] are one
    quotient apart, rounded down or up. *)
Lemma step_bounds : forall L n j B B',
  0 < n ->
  n * B <= j * L <= n * (B + 1) ->
  n * B' <= (j + 1) * L <= n * (B' + 1) ->
  (L mod n = 0 -> B = j * (L / n) /\ B' = (j + 1) * (L / n)) ->
  L / n <= B' - B <= (L + n - 1) / n.
Proof.
  intros L n j B B' Hn H1 H2 Hx.
  pose proof (Z.div_mod L n) as E.
  pose proof (Z.mod_pos_bound L n Hn) as R.
  set (c := L / n) in *. set (r := L mod n) in *.
  destruct (Z.eq_dec r 0) as [Hr | Hr].
  - destruct (Hx Hr) as [-> ->].
    assert ((L + n - 1) / n = c).
    { symmetry. apply Z.div_unique with (r := n - 1); lia. }
    lia.
  - assert ((L + n - 1) / n = c + 1).
    { symmetry. apply Z.div_unique with (r := r - 1); lia. }
    nia.
Qed.

Lemma total_duration_app : forall l1 l2,
  total_duration (l1 ++ l2) = total_duration l1 + total_duration l2.
Proof.
  intros l1 l2. unfold total_duration. rewrite map_app.
  induction (map duration l1) as [| d l IH]; simpl; lia.
Qed.

Lemma total_duration_telescope : forall (f : Z -> Z) k,
  total_duration
    (map (fun j => (f j, f (j + 1))) (map Z.of_nat (seq 0 k)))
  = f (Z.of_nat k) - f 0.
Proof.
  intros f. induction k as [| k IH].
  - simpl. unfold total_duration. simpl. lia.
  - rewrite seq_S, !map_app, total_duration_app, IH. cbn [map Nat.add].
    unfold total_duration, duration. cbn [map fold_right fst snd].
    rewrite Nat2Z.inj_succ. unfold Z.succ. lia.
Qed.

Section TimeSplit.

Variables L limit : Z.
Hypothesis Hlimit : 0 < limit < L.
Hypothesis Hrange : in_range L limit.

Let n := (L + limit - 1) / limit.

Lemma count_bounds : 2 <= n <= L /\ n * L <= 2 ^ 50 /\ L <= n * limit.
Proof.
  pose proof (num_sub_chunks_ceiling L limit (proj1 Hlimit)) as H.
  fold n in H. unfold in_range in Hrange. fold n in Hrange.
  cbv zeta in H.
  assert (1 < n) by nia.
  assert (n - 1 < L) by nia.
  repeat split; lia.
Qed.

Lemma cuts : forall j,
  0 <= j <= n ->
  exists s,
    sub_chunk_len L n = Some s
    /\ start_ms s j = Some (cut L n j)
    /\ int_of_number (min_float_int (mul_int j s) L) = Some (cut L n j)
    /\ (n * cut L n j <= j * L <= n * (cut L n j + 1) /\ 0 <= cut L n j)
    /\ (L mod n = 0 -> cut L n j = j * (L / n)).
Proof.
  intros j Hj. destruct count_bounds as [Hn [HnL _]].
  destruct (sub_chunk_len_spec L n) as [s [ms [es [sv H]]]]; [lia | |].
  { assert (2 ^ 50 < 2 ^ 53) by reflexivity. nia. }
  destruct H as [Es [Ns [Hes [Hsv [H1 [H2 Hx]]]]]].
  destruct (cut_spec L n j s ms es sv) as [B [EB [Emin [[HB HB0] HBx]]]];
    auto; try lia.
  exists s. unfold cut. rewrite Es, EB.
  repeat split; auto; try lia.
  rewrite Emin. f_equal. nia.
Qed.

Lemma all_bounds_cuts :
  all_bounds L limit
    = Some (map (fun j => (cut L n j, cut L n (j + 1))) (range n)).
Proof.
  destruct count_bounds as [Hn _].
  destruct (cuts 0) as [s [Es _]]; [lia |].
  unfold all_bounds, num_sub_chunks.
  destruct (Z.eqb_spec limit 0) as [| _]; [lia |].
  cbn [bind]. fold n. rewrite Es. cbn [bind].
  apply mapM_map. intros j Hj. apply in_range_iff in Hj.
  destruct (cuts j) as [s1 [Es1 [Ea _]]]; [lia |].
  destruct (cuts (j + 1)) as [s2 [Es2 [_ [Eb _]]]]; [lia |].
  assert (s1 = s) by congruence. assert (s2 = s) by congruence. subst s1 s2.
  unfold bound, end_ms. rewrite Ea, Eb. reflexivity.
Qed.

Lemma cut_durations : forall j,
  0 <= j < n ->
  L / n <= cut L n (j + 1) - cut L n j <= (L + n - 1) / n
  /\ 1 <= L / n /\ (L + n - 1) / n <= limit
  /\ 0 <= cut L n j /\ cut L n (j + 1) <= L.
Proof.
  intros j Hj. destruct count_bounds as [Hn [HnL Hlim]].
  destruct (cuts j) as [_ [_ [_ [_ [[H1 P1] X1]]]]]; [lia |].
  destruct (cuts (j + 1)) as [_ [_ [_ [_ [[H2 P2] X2]]]]]; [lia |].
  split; [apply (step_bounds L n j); auto; lia |].
  split; [apply Z.div_le_lower_bound; lia |].
  split; [| split; [exact P1 | nia]].
  assert ((L + n - 1) / n < limit + 1); [| lia].
  apply Z.div_lt_upper_bound; nia.
Qed.

Lemma sub_chunk_bounds_cuts :
  sub_chunk_bounds L limit
    = Some (map (fun j => (cut L n j, cut L n (j + 1))) (range n)).
Proof.
  unfold sub_chunk_bounds. rewrite all_bounds_cuts. cbn [option_map].
  f_equal. apply filter_all. intros ab Hab.
  apply in_map_iff in Hab. destruct Hab as [j [<- Hj]].
  apply in_range_iff in Hj.
  pose proof (cut_durations j Hj). unfold nonempty. cbn [fst snd].
  apply Z.ltb_lt. lia.
Qed.

(** The sub-chunks leave no gap: the first starts at 0, each starts
    where the one before ends, and the last ends at [L] or one
    millisecond before. *)
Lemma time_split_contiguous :
  cut L n 0 = 0 /\ L - 1 <= cut L n n <= L.
Proof.
  destruct count_bounds as [Hn _].
  destruct (cuts 0) as [_ [_ [_ [_ [[H0 P0] _]]]]]; [lia |].
  destruct (cuts n) as [_ [_ [_ [_ [[H1 _] _]]]]]; [lia |].
  split; nia.
Qed.

(** What the sub-chunks cover: the sum of their durations is the last
    cut, the whole segment or all but its last millisecond; it is the
    whole segment when the count divides the length. *)
Lemma time_split_total :
  exists bs,
    sub_chunk_bounds L limit = Some bs
    /\ total_duration bs = cut L n n
    /\ L - 1 <= total_duration bs <= L
    /\ (L mod n = 0 -> total_duration bs = L).
Proof.
  destruct count_bounds as [Hn _].
  destruct time_split_contiguous as [H0 Hlast].
  destruct (cuts n) as [_ [_ [_ [_ [_ Hx]]]]]; [lia |].
  eexists. split; [apply sub_chunk_bounds_cuts |].
  assert (E : total_duration
                (map (fun j => (cut L n j, cut L n (j + 1))) (range n))
              = cut L n n).
  { unfold range. rewrite total_duration_telescope, H0, Z2Nat.id by lia. lia. }
  rewrite E. split; [reflexivity |]. split; [exact Hlast |].
  intro Hmod. rewrite (Hx Hmod).
  pose proof (Z.div_mod L n ltac:(lia)). lia.
Qed.

End TimeSplit.

(** ** The time split: boundaries stay inside the segment *)

Lemma binary_round_aux_nonneg : forall mx ex lx,
  nonneg (binary_round_aux prec emax false mx ex lx).
Proof.
  intros mx ex lx. unfold binary_round_aux.
  destruct (shr_fexp prec emax mx ex lx) as [mrs' e'].
  destruct (shr_fexp prec emax _ e' loc_Exact) as [mrs'' e''].
  destruct (shr_m mrs''); [reflexivity | | exact I].
  destruct (e'' <=? emax - prec); reflexivity.
Qed.

Lemma of_int_nonneg : forall z, 0 <= z -> nonneg (of_int z).
Proof.
  intros z Hz. unfold of_int, binary_normalize.
  destruct z as [| p | p]; [reflexivity | | lia].
  unfold binary_round.
  destruct (shl_align p 0 _) as [mz ez]. apply binary_round_aux_nonneg.
Qed.

Lemma SFdiv_nonneg : forall x y,
  nonneg x -> nonneg y -> nonneg (SFdiv prec emax x y).
Proof.
  intros [sx | sx | | sx mx ex] [sy | sy | | sy my ey] Hx Hy;
    simpl in *; subst; simpl; auto.
  destruct (SFdiv_core_binary prec emax (Z.pos mx) ex (Z.pos my) ey)
    as [[mz ez] lz].
  apply binary_round_aux_nonneg.
Qed.

Lemma SFmul_nonneg : forall x y,
  nonneg x -> nonneg y -> nonneg (SFmul prec emax x y).
Proof.
  intros [sx | sx | | sx mx ex] [sy | sy | | sy my ey] Hx Hy;
    simpl in *; subst; simpl; auto.
  apply binary_round_aux_nonneg.
Qed.

Lemma to_int_nonneg : forall x a,
  nonneg x -> to_int x = Some a -> 0 <= a.
Proof.
  intros [s | s | | s m e] a Hx H; unfold to_int in H; unfold nonneg in Hx;
    try discriminate.
  - injection H as <-. lia.
  - subst s. unfold cond_Zopp in H.
    assert (E : a = if 0 <=? e then Z.pos m * 2 ^ e else Z.pos m / 2 ^ (- e))
      by congruence.
    rewrite E. clear H E.
    destruct (Z.leb_spec 0 e).
    + apply Z.mul_nonneg_nonneg; [lia | apply Z.pow_nonneg; lia].
    + apply Z.div_pos; [lia | apply Z.pow_pos_nonneg; lia].
Qed.

(** [int(min(x, L))] never passes [L]. *)
Lemma end_within : forall x L b,
  nonneg x -> 0 <= L ->
  int_of_number (min_float_int x L) = Some b -> 0 <= b <= L.
Proof.
  intros x L b Hx HL. unfold min_float_int.
  destruct (int_lt L x) eqn:Elt; cbn [int_of_number].
  - intro H. injection H as <-. lia.
  - intro H. split; [now apply (to_int_nonneg x) |].
    destruct x as [s | s | | s m e]; unfold to_int in H;
      unfold int_lt in Elt; unfold nonneg in Hx; try discriminate.
    + injection H as <-. apply Z.ltb_ge in Elt. exact Elt.
    + subst s. unfold cond_Zopp in *.
      assert (E : b = if 0 <=? e then Z.pos m * 2 ^ e
                      else Z.pos m / 2 ^ (- e)) by congruence.
      rewrite E. clear H E.
      destruct (Z.leb_spec 0 e).
      * apply Z.ltb_ge in Elt. exact Elt.
      * apply Z.ltb_ge in Elt.
        apply Z.div_le_upper_bound; [apply Z.pow_pos_nonneg; lia | lia].
Qed.

(** Whatever the lengths, a boundary pair lies within the segment. *)
Lemma all_bounds_within : forall L limit bs ab,
  0 <= L -> all_bounds L limit = Some bs -> In ab bs ->
  0 <= fst ab /\ snd ab <= L.
Proof.
  intros L limit bs ab HL H Hab. unfold all_bounds, num_sub_chunks in H.
  destruct (limit =? 0); [discriminate |]. cbn [bind] in H.
  set (n := (L + limit - 1) / limit) in *.
  unfold sub_chunk_len, truediv in H.
  destruct (n =? 0); [discriminate |]. cbn [bind] in H.
  destruct (mapM_In _ _ _ _ _ ab H Hab) as [j [Hj Hb]].
  apply in_range_iff in Hj.
  assert (Ns : nonneg (SFdiv prec emax (of_int L) (of_int n)))
    by (apply SFdiv_nonneg; apply of_int_nonneg; lia).
  unfold bound, start_ms, end_ms in Hb.
  destruct (to_int _) as [a |] eqn:Ea; [| discriminate]. cbn [bind] in Hb.
  destruct (int_of_number _) as [b |] eqn:Eb; [| discriminate].
  cbn [bind] in Hb. injection Hb as <-. cbn [fst snd].
  split.
  - apply (to_int_nonneg _ _ (SFmul_nonneg _ _ (of_int_nonneg j ltac:(lia)) Ns) Ea).
  - apply (end_within _ L b
             (SFmul_nonneg _ _ (of_int_nonneg (j + 1) ltac:(lia)) Ns) HL Eb).
Qed.

(** ** The pieces of a chunk *)

Lemma len_slice : forall (sample : Type) (chunk : list sample) a b,
  0 <= a <= b -> b <= len chunk -> len (slice chunk a b) = b - a.
Proof.
  intros sample chunk a b Hab Hb. unfold len, slice in *.
  rewrite length_firstn, length_skipn. lia.
Qed.

Lemma pieces_long : forall (sample : Type) (chunk : list sample) limit ps a,
  limit < len chunk -> pieces limit chunk = Some ps -> In a ps ->
  exists bs x y,
    sub_chunk_bounds (len chunk) limit = Some bs /\ In (x, y) bs
    /\ a = slice chunk x y /\ 0 <= x < y /\ y <= len chunk
    /\ len a = y - x.
Proof.
  intros sample chunk limit ps a Hlong Hp Ha. unfold pieces in Hp.
  apply Z.ltb_lt in Hlong. rewrite Hlong in Hp.
  destruct (sub_chunk_bounds (len chunk) limit) as [bs |] eqn:Eb;
    [| discriminate].
  cbn [bind] in Hp. injection Hp as <-.
  apply in_map_iff in Ha. destruct Ha as [[x y] [<- Hxy]]. cbn [fst snd].
  exists bs, x, y.
  unfold sub_chunk_bounds in Eb.
  destruct (all_bounds (len chunk) limit) as [all |] eqn:Ea; [| discriminate].
  cbn [option_map] in Eb. injection Eb as Eb.
  assert (Hin : In (x, y) (filter nonempty all)) by (rewrite Eb; exact Hxy).
  apply filter_In in Hin. destruct Hin as [Hall Hne].
  unfold nonempty in Hne. cbn [fst snd] in Hne. apply Z.ltb_lt in Hne.
  assert (H0 : 0 <= len chunk) by (unfold len; lia).
  destruct (all_bounds_within _ _ _ _ H0 Ea Hall) as [Hx Hy].
  cbn [fst snd] in Hx, Hy.
  repeat split; auto; try lia.
  apply len_slice; lia.
Qed.

Lemma pieces_short : forall (sample : Type) (chunk : list sample) limit ps a,
  len chunk <= limit -> pieces limit chunk = Some ps -> In a ps ->
  a = chunk /\ 100 <= len a.
Proof.
  intros sample chunk limit ps a Hshort Hp Ha. unfold pieces in Hp.
  apply Z.ltb_ge in Hshort. rewrite Hshort in Hp.
  destruct (Z.ltb_spec (len chunk) 100); injection Hp as <-.
  - destruct Ha.
  - destruct Ha as [<- | []]. auto.
Qed.

Lemma exported_In : forall (A : Type) (export_ok : nat -> bool) (ps : list A) k a,
  In a (exported export_ok k ps) -> In a ps.
Proof.
  induction ps as [| p ps IH]; intros k a H; simpl in *; [exact H |].
  destruct (export_ok k).
  - destruct H as [<- | H]; [now left | right; eapply IH; eauto].
  - right. eapply IH; eauto.
Qed.

Lemma all_pieces_In : forall (sample : Type) limit
    (chunks : list (list sample)) ps a,
  all_pieces limit chunks = Some ps -> In a ps ->
  exists chunk qs,
    In chunk chunks /\ pieces limit chunk = Some qs /\ In a qs.
Proof.
  induction chunks as [| c chunks IH]; intros ps a H Ha; simpl in H.
  - injection H as <-. destruct Ha.
  - destruct (pieces limit c) as [qs |] eqn:Eq; [| discriminate].
    cbn [bind] in H.
    destruct (all_pieces limit chunks) as [rs |] eqn:Er; [| discriminate].
    cbn [bind] in H. injection H as <-.
    apply in_app_or in Ha. destruct Ha as [Ha | Ha].
    + exists c, qs. split; [now left | auto].
    + destruct (IH rs a eq_refl Ha) as [chunk [qs' [Hc [Hp Hq]]]].
      exists chunk, qs'. split; [now right | auto].
Qed.

(** What is returned was a piece of one of the segments. *)
Lemma split_output : forall (sample : Type) split_on_silence export_ok
    (audio : option (list sample)) min_silence_len silence_thresh limit
    name a,
  In (name, a)
     (split_audio_intelligently split_on_silence export_ok audio
        min_silence_len silence_thresh limit) ->
  exists wav chunk qs,
    audio = Some wav
    /\ In chunk (segments split_on_silence wav min_silence_len silence_thresh)
    /\ pieces limit chunk = Some qs /\ In a qs.
Proof.
  intros sample sos eok audio msl st limit name a H.
  unfold split_audio_intelligently in H.
  destruct audio as [wav |]; [| destruct H].
  assert (H0 : numbered (@initial_state sample)) by (split; reflexivity).
  pose proof (process_chunks_spec sample eok limit (segments sos wav msl st)
                initial_state H0) as Hs.
  destruct (process_chunks eok limit (segments sos wav msl st) initial_state)
    as [st' |]; [| destruct H].
  destruct (all_pieces limit (segments sos wav msl st)) as [ps |] eqn:Ep;
    [| contradiction].
  destruct Hs as [_ Ha]. cbn [initial_state processed_chunks_paths exports map app] in Ha.
  assert (Hin : In a (exported eok 0 ps)).
  { rewrite <- Ha. apply in_map_iff. exists (name, a). auto. }
  apply exported_In in Hin.
  destruct (all_pieces_In _ _ _ _ _ Ep Hin) as [chunk [qs [Hc [Hp Hq]]]].
  exists wav, chunk, qs. auto.
Qed.

(** ** The claims on the time split *)

(** C1, at an input where it fails: a segment of 4080002 ms (68 min)
    with the default limit of 120000 ms is cut in 35; the float product
    [35 * (4080002 / 35)] falls just below 4080002, its truncation is
    4080001, and the last millisecond is in no sub-chunk. *)
Theorem C1_last_millisecond_lost :
  exists bs,
    sub_chunk_bounds 4080002 (DEFAULT_CHUNK_LENGTH_MS * 2) = Some bs
    /\ List.length bs = 35%nat
    /\ hd (0, 0) bs = (0, 116571)
    /\ last bs (0, 0) = (3963430, 4080001)
    /\ total_duration bs = 4080001.
Proof.
  eexists. split; [vm_compute; reflexivity |].
  repeat split; reflexivity.
Qed.

(** C2, as the claim states it, fails: with a limit of 150 ms a segment
    of 151 ms is cut in two sub-chunks of 75 and 76 ms, both exported. *)
Lemma C2_counterexample :
  exists name a,
    In (name, a)
       (split_audio_intelligently no_silence always (Some (frames 151))
          DEFAULT_MIN_SILENCE_LEN DEFAULT_SILENCE_THRESH 150)
    /\ len a < 100.
Proof.
  exists (chunk_filename 0), (frames 75). split.
  - vm_compute. left. reflexivity.
  - vm_compute. reflexivity.
Qed.

(** C2, amended: a chunk returned for a segment within the limit is that
    segment and lasts 100 ms or more; one returned for a longer segment
    is a time slice that is not empty, and lasts 100 ms or more when the
    limit is at least 200 ms (the default is 120000) and the length is
    in range. *)
Theorem C2_returned_chunk_durations :
  forall (sample : Type) split_on_silence export_ok
         (audio : option (list sample)) min_silence_len silence_thresh
         limit name a,
  In (name, a)
     (split_audio_intelligently split_on_silence export_ok audio
        min_silence_len silence_thresh limit) ->
  exists wav chunk,
    audio = Some wav
    /\ In chunk (segments split_on_silence wav min_silence_len silence_thresh)
    /\ ((len chunk <= limit /\ a = chunk /\ 100 <= len a)
        \/ (limit < len chunk /\ 1 <= len a
            /\ (200 <= limit -> in_range (len chunk) limit ->
                100 <= len a))).
Proof.
  intros sample sos eok audio msl st limit name a H.
  destruct (split_output _ _ _ _ _ _ _ _ _ H)
    as [wav [chunk [qs [Ea [Hc [Hp Hq]]]]]].
  exists wav, chunk. split; [exact Ea |]. split; [exact Hc |].
  destruct (Z.le_gt_cases (len chunk) limit) as [Hs | Hl].
  - left. destruct (pieces_short _ _ _ _ _ Hs Hp Hq). auto.
  - right.
    destruct (pieces_long _ _ _ _ _ Hl Hp Hq)
      as [bs [x [y [Eb [Hxy [Hsl [Hx [Hy Hlen]]]]]]]].
    split; [lia |]. split; [lia |].
    intros H200 Hr.
    assert (Hlim : 0 < limit < len chunk) by lia.
    rewrite (sub_chunk_bounds_cuts _ _ Hlim Hr) in Eb. injection Eb as <-.
    apply in_map_iff in Hxy. destruct Hxy as [j [Ej Hj]].
    injection Ej as <- <-. apply in_range_iff in Hj.
    destruct (cut_durations _ _ Hlim Hr j Hj) as [[Hd _] _].
    destruct (count_bounds _ _ Hlim Hr) as [Hn _].
    pose proof (num_sub_chunks_ceiling (len chunk) limit (proj1 Hlim)) as Hc'.
    cbv zeta in Hc'.
    set (n := (len chunk + limit - 1) / limit) in *.
    assert (100 <= len chunk / n) by (apply Z.div_le_lower_bound; nia).
    lia.
Qed.

Lemma C2_witness :
  exists wav chunk,
    Some (frames 151) = Some wav
    /\ In chunk (segments no_silence wav DEFAULT_MIN_SILENCE_LEN
                   DEFAULT_SILENCE_THRESH)
    /\ ((len chunk <= 150 /\ frames 75 = chunk /\ 100 <= len (frames 75))
        \/ (150 < len chunk /\ 1 <= len (frames 75)
            /\ (200 <= 150 -> in_range (len chunk) 150 ->
                100 <= len (frames 75)))).
Proof.
  apply (C2_returned_chunk_durations unit no_silence always
           (Some (frames 151)) DEFAULT_MIN_SILENCE_LEN
           DEFAULT_SILENCE_THRESH 150 (chunk_filename 0) (frames 75)).
  vm_compute. left. reflexivity.
Defined.

(** C5, as the claim states it, fails: the sub-segments are not of equal
    length. A segment of 120001 ms at the default limit is cut in
    60000 ms and 60001 ms. *)
Lemma C5_counterexample :
  exists bs,
    sub_chunk_bounds 120001 (DEFAULT_CHUNK_LENGTH_MS * 2) = Some bs
    /\ ~ (forall ab ab', In ab bs -> In ab' bs ->
          duration ab = duration ab').
Proof.
  exists [(0, 60000); (60000, 120001)]. split; [vm_compute; reflexivity |].
  intro H. specialize (H (0, 60000) (60000, 120001)).
  cbn in H. assert (60000 = 60001) by (apply H; auto). discriminate.
Qed.

(** C5, amended: a segment longer than the limit, and in range, is cut
    in [n] pieces, [n] the ceiling of its length over the limit and the
    least count that fits; every piece lasts the length over [n] rounded
    down or up (so two pieces differ by 1 ms at most), and no more than
    the limit. *)
Theorem C5_time_split_count_and_lengths :
  forall (sample : Type) (chunk : list sample) limit,
  0 < limit < len chunk -> in_range (len chunk) limit ->
  let L := len chunk in
  let n := (L + limit - 1) / limit in
  num_sub_chunks L limit = Some n
  /\ L <= n * limit
  /\ (forall n', 0 <= n' < n -> n' * limit < L)
  /\ exists ps,
       pieces limit chunk = Some ps
       /\ Z.of_nat (List.length ps) = n
       /\ forall a, In a ps ->
            L / n <= len a <= (L + n - 1) / n /\ len a <= limit.
Proof.
  intros sample chunk limit Hlim Hr L n.
  destruct (count_bounds L limit Hlim Hr) as [Hn [_ HL]]. fold n in Hn, HL.
  pose proof (num_sub_chunks_ceiling L limit (proj1 Hlim)) as Hc.
  cbv zeta in Hc. fold n in Hc.
  split.
  { unfold num_sub_chunks. destruct (Z.eqb_spec limit 0); [lia | reflexivity]. }
  split; [exact HL |]. split; [intros n' Hn'; nia |].
  exists (map (fun ab => slice chunk (fst ab) (snd ab))
            (map (fun j => (cut L n j, cut L n (j + 1))) (range n))).
  split.
  { unfold pieces. fold L.
    replace (limit <? L) with true by (symmetry; apply Z.ltb_lt; lia).
    rewrite (sub_chunk_bounds_cuts L limit Hlim Hr). reflexivity. }
  split; [rewrite !length_map; apply length_range; lia |].
  intros a Ha. rewrite map_map in Ha. apply in_map_iff in Ha.
  destruct Ha as [j [<- Hj]]. cbn [fst snd]. apply in_range_iff in Hj.
  destruct (cut_durations L limit Hlim Hr j Hj) as [Hd [Hq [Hl [H0 H1]]]].
  fold n in Hd, Hq, Hl, H0, H1.
  rewrite len_slice by (fold L; lia). lia.
Qed.

Lemma C5_witness :
  exists ps,
    pieces 150 (frames 151) = Some ps
    /\ Z.of_nat (List.length ps) = 2
    /\ forall a, In a ps -> 75 <= len a <= 76 /\ len a <= 150.
Proof.
  assert (H1 : 0 < 150 < len (frames 151)) by (vm_compute; auto).
  assert (H2 : in_range (len (frames 151)) 150) by (vm_compute; discriminate).
  destruct (C5_time_split_count_and_lengths unit (frames 151) 150 H1 H2)
    as [_ [_ [_ H]]].
  exact H.
Defined.

(** The scenario of the specification: one segment of 130000 ms at the
    default limit is cut in two sub-chunks of 65000 ms. *)
Example scenario_130000 :
  sub_chunk_bounds 130000 (DEFAULT_CHUNK_LENGTH_MS * 2)
    = Some [(0, 65000); (65000, 130000)].
Proof. vm_compute. reflexivity. Qed.

(** * Further properties: the splitter *)

Lemma process_chunks_zero : forall (sample : Type) export_ok
    (chunks : list (list sample)) st,
  process_chunks export_ok 0 chunks st = None
  \/ process_chunks export_ok 0 chunks st = Some st.
Proof.
  intros sample export_ok chunks st. induction chunks as [|c rest IH].
  - right. reflexivity.
  - cbn [process_chunks]. unfold pieces.
    destruct (0 <? len c) eqn:Hpos.
    + left. reflexivity.
    + assert (Hlen : (len c <? 100) = true).
      { apply Z.ltb_ge in Hpos. apply Z.ltb_lt. lia. }
      rewrite Hlen. cbn. exact IH.
Qed.

(** X1. A limit of 0 ms gives no chunk at all, whatever the audio: a
    segment that is not empty raises [ZeroDivisionError], which the
    handler around the body turns into the empty list, and an empty
    segment is dropped as too short. *)
Theorem zero_limit_no_chunks :
  forall (sample : Type) split_on_silence export_ok
         (audio : option (list sample)) min_silence_len silence_thresh,
  split_audio_intelligently split_on_silence export_ok audio
    min_silence_len silence_thresh 0 = [].
Proof.
  intros sample sos eok audio msl sth. unfold split_audio_intelligently.
  destruct audio as [a|]; [|reflexivity].
  destruct (process_chunks_zero sample eok (segments sos a msl sth)
              initial_state) as [H|H]; rewrite H; reflexivity.
Qed.

(** ** The names of the chunks *)

Lemma string_length_app : forall s t,
  String.length (s ++ t) = (String.length s + String.length t)%nat.
Proof.
  induction s as [|c s IH]; intros t; cbn; [reflexivity|].
  now rewrite IH.
Qed.

Lemma string_app_inv_tail : forall s1 s2 t,
  (s1 ++ t = s2 ++ t)%string -> s1 = s2.
Proof.
  induction s1 as [|c s1 IH]; intros [|d s2] t H; cbn in H.
  - reflexivity.
  - apply (f_equal String.length) in H. cbn in H.
    rewrite string_length_app in H. lia.
  - apply (f_equal String.length) in H. cbn in H.
    rewrite string_length_app in H. lia.
  - injection H as -> H. f_equal. exact (IH _ _ H).
Qed.

Lemma to_uint_not_nil : forall k, Nat.to_uint k <> Decimal.Nil.
Proof.
  intros k H. pose proof (Unsigned.of_to k) as E. rewrite H in E.
  cbn in E. subst k. discriminate H.
Qed.

Lemma chunk_filename_inj : forall j k,
  chunk_filename j = chunk_filename k -> j = k.
Proof.
  intros j k H. unfold chunk_filename in H. cbn [append] in H.
  repeat (injection H as H).
  apply string_app_inv_tail in H.
  apply Unsigned.to_uint_inj.
  pose proof (NilZero.usu _ (to_uint_not_nil j)) as Hj.
  pose proof (NilZero.usu _ (to_uint_not_nil k)) as Hk.
  rewrite H in Hj. congruence.
Qed.

(** X3. No two chunks of a run have the same path: the chunks are named
    by a counter, and the decimal name of a number determines it. *)
Theorem chunk_paths_distinct :
  forall (sample : Type) split_on_silence export_ok
         (audio : option (list sample)) min_silence_len silence_thresh
         chunk_length_limit_ms,
  NoDup (map fst
           (split_audio_intelligently split_on_silence export_ok audio
              min_silence_len silence_thresh chunk_length_limit_ms)).
Proof.
  intros sample sos eok audio msl sth limit.
  unfold split_audio_intelligently.
  destruct audio as [a|]; [|constructor].
  assert (N0 : numbered (@initial_state sample)) by (split; reflexivity).
  pose proof (process_chunks_spec sample eok limit (segments sos a msl sth)
                initial_state N0) as Hspec.
  destruct (process_chunks eok limit (segments sos a msl sth) initial_state)
    as [st|]; [|constructor].
  destruct (all_pieces limit (segments sos a msl sth)); [|contradiction].
  destruct Hspec as [[Hn _] _]. rewrite Hn.
  apply NoDup_map_NoDup_ForallPairs; [|apply seq_NoDup].
  intros x y _ _. apply chunk_filename_inj.
Qed.

(** ** Segments within the limit *)

Lemma all_pieces_short : forall (sample : Type) limit
    (chunks : list (list sample)),
  (forall c, In c chunks -> len c <= limit) ->
  all_pieces limit chunks = Some (filter (fun c => 100 <=? len c) chunks).
Proof.
  intros sample limit chunks. induction chunks as [|c rest IH]; intros H.
  - reflexivity.
  - cbn [all_pieces filter]. unfold pieces.
    assert (Hc : (limit <? len c) = false).
    { apply Z.ltb_ge. apply H. now left. }
    rewrite Hc, IH by (intros c' Hc'; apply H; now right).
    rewrite Z.leb_antisym. destruct (len c <? 100); reflexivity.
Qed.

(** X4. When no segment is longer than the limit, the audio written is
    that of the segments of at least 100 ms whose export succeeds, as
    they are and in their order: shorter segments are dropped, nothing
    is cut. *)
Theorem short_segments_kept_whole :
  forall (sample : Type) split_on_silence export_ok (audio : list sample)
         min_silence_len silence_thresh chunk_length_limit_ms,
  (forall c,
     In c (segments split_on_silence audio min_silence_len silence_thresh) ->
     len c <= chunk_length_limit_ms) ->
  map snd
    (split_audio_intelligently split_on_silence export_ok (Some audio)
       min_silence_len silence_thresh chunk_length_limit_ms)
  = exported export_ok 0
      (filter (fun c => 100 <=? len c)
         (segments split_on_silence audio min_silence_len silence_thresh)).
Proof.
  intros sample sos eok audio msl sth limit H.
  unfold split_audio_intelligently.
  assert (N0 : numbered (@initial_state sample)) by (split; reflexivity).
  pose proof (process_chunks_spec sample eok limit (segments sos audio msl sth)
                initial_state N0) as Hspec.
  rewrite (all_pieces_short sample limit _ H) in Hspec.
  destruct (process_chunks eok limit (segments sos audio msl sth)
              initial_state) as [st|]; [|contradiction].
  destruct Hspec as [_ Hs]. exact Hs.
Qed.

(** Two segments within the limit and one too short, the second export
    failing. *)
Lemma short_segments_kept_whole_witness :
  map snd
    (split_audio_intelligently
       (fun _ _ _ _ => [frames 200; frames 50; frames 300; frames 100])
       second_export_fails (Some (frames 650))
       DEFAULT_MIN_SILENCE_LEN DEFAULT_SILENCE_THRESH 300)
  = [frames 200; frames 100].
Proof.
  rewrite (short_segments_kept_whole unit
             (fun _ _ _ _ => [frames 200; frames 50; frames 300; frames 100])
             second_export_fails (frames 650)
             DEFAULT_MIN_SILENCE_LEN DEFAULT_SILENCE_THRESH 300).
  - reflexivity.
  - intros c Hc. cbn in Hc.
    destruct Hc as [<-|[<-|[<-|[<-|[]]]]]; vm_compute; discriminate.
Defined.

(** ** The loop completes *)

Lemma pieces_defined : forall (sample : Type) limit (c : list sample),
  0 < limit ->
  (limit < len c -> in_range (len c) limit) ->
  exists ps, pieces limit c = Some ps.
Proof.
  intros sample limit c Hpos Hr. unfold pieces.
  destruct (limit <? len c) eqn:Hlong.
  - apply Z.ltb_lt in Hlong.
    rewrite (sub_chunk_bounds_cuts (len c) limit (conj Hpos Hlong) (Hr Hlong)).
    cbn. eexists. reflexivity.
  - destruct (len c <? 100); eexists; reflexivity.
Qed.

Lemma all_pieces_defined : forall (sample : Type) limit
    (chunks : list (list sample)),
  0 < limit ->
  (forall c, In c chunks -> limit < len c -> in_range (len c) limit) ->
  exists ps, all_pieces limit chunks = Some ps.
Proof.
  intros sample limit chunks Hpos. induction chunks as [|c rest IH]; intros H.
  - eexists. reflexivity.
  - cbn [all_pieces].
    destruct (pieces_defined sample limit c Hpos (H c (or_introl eq_refl)))
      as [ps ->].
    destruct IH as [qs ->]; [intros c' Hc'; apply H; now right|].
    cbn. eexists. reflexivity.
Qed.

(** X5. With a positive limit, and over-long segments in the range of
    lengths where the float arithmetic is within a millisecond, the
    computation of the cuts raises nothing: the loop over the segments
    runs to its end, and the handler that returns the empty list is not
    entered from it. *)
Theorem positive_limit_loop_completes :
  forall (sample : Type) split_on_silence export_ok (audio : list sample)
         min_silence_len silence_thresh chunk_length_limit_ms,
  0 < chunk_length_limit_ms ->
  (forall c,
     In c (segments split_on_silence audio min_silence_len silence_thresh) ->
     chunk_length_limit_ms < len c ->
     in_range (len c) chunk_length_limit_ms) ->
  exists st,
    process_chunks export_ok chunk_length_limit_ms
      (segments split_on_silence audio min_silence_len silence_thresh)
      initial_state = Some st
    /\ split_audio_intelligently split_on_silence export_ok (Some audio)
         min_silence_len silence_thresh chunk_length_limit_ms
       = processed_chunks_paths st.
Proof.
  intros sample sos eok audio msl sth limit Hpos H.
  unfold split_audio_intelligently.
  assert (N0 : numbered (@initial_state sample)) by (split; reflexivity).
  pose proof (process_chunks_spec sample eok limit (segments sos audio msl sth)
                initial_state N0) as Hspec.
  destruct (all_pieces_defined sample limit _ Hpos H) as [ps Hps].
  rewrite Hps in Hspec.
  destruct (process_chunks eok limit (segments sos audio msl sth)
              initial_state) as [st|]; [|contradiction].
  exists st. split; reflexivity.
Qed.

Lemma positive_limit_loop_completes_witness :
  exists st,
    process_chunks always 150
      (segments no_silence (frames 151) DEFAULT_MIN_SILENCE_LEN
         DEFAULT_SILENCE_THRESH) initial_state = Some st
    /\ split_audio_intelligently no_silence always (Some (frames 151))
         DEFAULT_MIN_SILENCE_LEN DEFAULT_SILENCE_THRESH 150
       = processed_chunks_paths st.
Proof.
  apply (positive_limit_loop_completes unit no_silence always (frames 151)
           DEFAULT_MIN_SILENCE_LEN DEFAULT_SILENCE_THRESH 150).
  - lia.
  - intros c Hc _. cbn in Hc. destruct Hc as [<-|[]].
    unfold in_range. vm_compute. discriminate.
Defined.

(** ** The time slices of a segment, end to end *)

Lemma firstn_add : forall (A : Type) (p q : nat) (l : list A),
  firstn (p + q) l = firstn p l ++ firstn q (skipn p l).
Proof.
  intros A p. induction p as [|p IH]; intros q l; [reflexivity|].
  destruct l as [|x l]; cbn.
  - now rewrite firstn_nil.
  - now rewrite IH.
Qed.

Lemma slice_app : forall (sample : Type) (a : list sample) x y z,
  0 <= x <= y -> y <= z ->
  slice a x y ++ slice a y z = slice a x z.
Proof.
  intros sample a x y z Hxy Hyz. unfold slice.
  replace (Z.to_nat z - Z.to_nat x)%nat
    with ((Z.to_nat y - Z.to_nat x) + (Z.to_nat z - Z.to_nat y))%nat by lia.
  rewrite firstn_add, skipn_skipn.
  replace (Z.to_nat y - Z.to_nat x + Z.to_nat x)%nat with (Z.to_nat y) by lia.
  reflexivity.
Qed.

Lemma slice_empty : forall (sample : Type) (a : list sample) x y,
  y <= x -> slice a x y = [].
Proof.
  intros sample a x y H. unfold slice.
  replace (Z.to_nat y - Z.to_nat x)%nat with 0%nat by lia. reflexivity.
Qed.

Lemma concat_slices_nonempty : forall (sample : Type) (a : list sample) bs,
  List.concat (map (fun ab => slice a (fst ab) (snd ab)) (filter nonempty bs))
  = List.concat (map (fun ab => slice a (fst ab) (snd ab)) bs).
Proof.
  intros sample a bs. induction bs as [|ab bs IH]; [reflexivity|].
  cbn [filter map List.concat]. unfold nonempty at 1.
  destruct (fst ab <? snd ab) eqn:E.
  - cbn [map List.concat]. now rewrite IH.
  - rewrite IH. apply Z.ltb_ge in E. now rewrite (slice_empty _ a _ _ E).
Qed.

Lemma concat_slices_telescope : forall (sample : Type) (a : list sample)
    (c : Z -> Z) (k : nat),
  c 0 = 0 ->
  (forall j, 0 <= j < Z.of_nat k -> 0 <= c j <= c (j + 1)) ->
  List.concat (map (fun j => slice a (c j) (c (j + 1)))
              (map Z.of_nat (seq 0 k)))
  = firstn (Z.to_nat (c (Z.of_nat k))) a.
Proof.
  intros sample a c k H0 Hmono. induction k as [|k IH].
  - cbn. rewrite H0. reflexivity.
  - rewrite seq_S, !map_app, concat_app, IH by (intros j Hj; apply Hmono; lia).
    cbn [map List.concat Nat.add]. rewrite app_nil_r.
    replace (firstn (Z.to_nat (c (Z.of_nat k))) a)
      with (slice a 0 (c (Z.of_nat k))).
    2:{ unfold slice. cbn. now rewrite Nat.sub_0_r. }
    replace (Z.of_nat (S k)) with (Z.of_nat k + 1) by lia.
    assert (Hk : 0 <= c (Z.of_nat k) <= c (Z.of_nat k + 1))
      by (apply Hmono; lia).
    assert (Hpos : 0 <= c (Z.of_nat k)) by lia.
    rewrite slice_app by lia.
    unfold slice. cbn. now rewrite Nat.sub_0_r.
Qed.

(** X2. The time slices of an over-long segment are consecutive: put end
    to end, in order, they are the segment itself, or the segment
    without its last millisecond; nothing overlaps and nothing else is
    left out. They are the whole segment when the number of slices
    divides its length. *)
Theorem time_slices_cover_segment :
  forall (sample : Type) (chunk : list sample) limit,
  0 < limit < len chunk -> in_range (len chunk) limit ->
  exists ps,
    pieces limit chunk = Some ps
    /\ (List.concat ps = chunk \/ List.concat ps = removelast chunk)
    /\ (len chunk mod ((len chunk + limit - 1) / limit) = 0 ->
        List.concat ps = chunk).
Proof.
  intros sample chunk limit Hlimit Hrange.
  set (L := len chunk) in *. set (n := (L + limit - 1) / limit).
  pose proof (count_bounds L limit Hlimit Hrange) as [Hn [_ _]].
  fold n in Hn.
  assert (Hcut : forall j, 0 <= j <= n ->
            (n * cut L n j <= j * L <= n * (cut L n j + 1))
            /\ 0 <= cut L n j).
  { intros j Hj.
    destruct (cuts L limit Hlimit Hrange j Hj) as [s [_ [_ [_ [Hb _]]]]].
    exact Hb. }
  assert (Hmono : forall j, 0 <= j < n -> 0 <= cut L n j <= cut L n (j + 1)).
  { intros j Hj.
    destruct (Hcut j ltac:(lia)) as [[H1 _] H0].
    destruct (Hcut (j + 1) ltac:(lia)) as [[_ H2] _].
    split; [exact H0|]. nia. }
  destruct (time_split_contiguous L limit Hlimit Hrange) as [H0 Hend].
  fold n in H0, Hend.
  assert (Hps : pieces limit chunk
            = Some (map (fun ab => slice chunk (fst ab) (snd ab))
                 (filter nonempty
                    (map (fun j => (cut L n j, cut L n (j + 1)))
                         (range n))))).
  { unfold pieces. fold L.
    replace (limit <? L) with true by (symmetry; apply Z.ltb_lt; lia).
    unfold sub_chunk_bounds.
    rewrite (all_bounds_cuts L limit Hlimit Hrange). reflexivity. }
  assert (Hcat : List.concat (map (fun ab => slice chunk (fst ab) (snd ab))
                 (filter nonempty
                    (map (fun j => (cut L n j, cut L n (j + 1)))
                         (range n))))
                 = firstn (Z.to_nat (cut L n n)) chunk).
  { rewrite concat_slices_nonempty, map_map. cbn [fst snd]. unfold range.
    rewrite (concat_slices_telescope sample chunk (cut L n) (Z.to_nat n) H0).
    - now rewrite Z2Nat.id by lia.
    - intros j Hj. apply Hmono. lia. }
  eexists. split; [exact Hps|]. rewrite Hcat. split.
  - assert (Hc : cut L n n = L \/ cut L n n = L - 1) by lia.
    destruct Hc as [-> | ->].
    + left. unfold L, len. rewrite Nat2Z.id. apply firstn_all.
    + right. rewrite removelast_firstn_len. f_equal. unfold L, len. lia.
  - intros Hdiv.
    destruct (cuts L limit Hlimit Hrange n ltac:(lia))
      as [s [_ [_ [_ [_ Hex]]]]].
    fold n in Hex. rewrite (Hex Hdiv).
    assert (HL : n * (L / n) = L).
    { pose proof (Z.div_mod L n ltac:(lia)). lia. }
    rewrite HL. unfold L, len. rewrite Nat2Z.id. apply firstn_all.
Qed.

Lemma time_slices_cover_segment_witness :
  exists ps,
    pieces 150 (frames 151) = Some ps
    /\ (List.concat ps = frames 151 \/ List.concat ps = removelast (frames 151))
    /\ (len (frames 151) mod ((len (frames 151) + 150 - 1) / 150) = 0 ->
        List.concat ps = frames 151).
Proof.
  apply (time_slices_cover_segment unit (frames 151) 150).
  - vm_compute. split; reflexivity.
  - unfold in_range. vm_compute. discriminate.
Defined.

(** * Further properties: the two loops *)

Lemma transcribe_chunk_whisper_frontend : forall ui env chunk_path model_size,
  fst (transcribe_chunk_whisper ui env chunk_path model_size)
  = fst (transcribe_chunk_whisper CLI env chunk_path model_size).
Proof.
  intros ui env p size. unfold transcribe_chunk_whisper.
  destruct (negb (whisper_available env)); [reflexivity|].
  destruct (load_model_ok env size p); [|reflexivity].
  destruct (whisper_transcribe env p); reflexivity.
Qed.

Lemma transcribe_chunk_google_frontend : forall ui env chunk_path,
  fst (transcribe_chunk_google ui env chunk_path)
  = fst (transcribe_chunk_google CLI env chunk_path).
Proof.
  intros ui env p. unfold transcribe_chunk_google.
  destruct (audio_file_opens env p); [|reflexivity].
  destruct (google env p); reflexivity.
Qed.

(** One turn of the loop of the desktop program. *)
Lemma gui_step_spec : forall env e model_size parts tr ip,
  fst (gui_step env e model_size (parts, tr) ip)
  = if gui_escapes env e (snd ip) then None
    else Some (parts
               ++ filter truthy [chunk_text env e model_size (snd ip)]).
Proof.
  intros env e size parts tr [i p]. unfold gui_step, gui_escapes, chunk_text.
  unfold transcribe_chunk. cbn [snd]. destruct e.
  - pose proof (transcribe_chunk_whisper_frontend GUI env p size) as Hui.
    destruct (negb (whisper_available env)) eqn:Hav.
    + unfold transcribe_chunk_whisper. rewrite Hav. cbn.
      now rewrite app_nil_r.
    + destruct (transcribe_chunk_whisper_total GUI env p size)
        as [text [Ht _]].
      rewrite <- Hui.
      destruct (transcribe_chunk_whisper GUI env p size) as [r ev].
      cbn [fst] in Ht. subst r. cbn.
      destruct (truthy text); [reflexivity|now rewrite app_nil_r].
  - pose proof (transcribe_chunk_google_frontend GUI env p) as Hui.
    destruct (audio_file_opens env p) eqn:Hop; cbn [negb].
    + destruct (transcribe_chunk_google_opened GUI env p Hop)
        as [text [Ht _]].
      rewrite <- Hui.
      destruct (transcribe_chunk_google GUI env p) as [r ev].
      cbn [fst] in Ht. subst r. cbn.
      destruct (truthy text); [reflexivity|now rewrite app_nil_r].
    + pose proof (transcribe_chunk_google_unopened GUI env p Hop) as Ht.
      destruct (transcribe_chunk_google GUI env p) as [r ev].
      cbn [fst] in Ht. subst r. reflexivity.
Qed.

Lemma gui_loop_spec : forall env e model_size l parts tr,
  fst (gui_loop env e model_size l (parts, tr))
  = if forallb (fun ip => negb (gui_escapes env e (snd ip))) l
    then Some (parts
               ++ filter truthy
                    (map (chunk_text env e model_size) (map snd l)))
    else None.
Proof.
  intros env e size l. induction l as [|ip rest IH]; intros parts tr.
  - cbn. now rewrite app_nil_r.
  - cbn [gui_loop forallb map].
    pose proof (gui_step_spec env e size parts tr ip) as Hs.
    destruct (gui_step env e size (parts, tr) ip) as [[parts'|] tr'];
      cbn [fst] in Hs;
      destruct (gui_escapes env e (snd ip)); try discriminate.
    + injection Hs as ->. cbn [negb andb]. rewrite IH.
      destruct (forallb _ rest); [|reflexivity].
      cbn [filter]. destruct (truthy (chunk_text env e size (snd ip)));
        cbn [app]; now rewrite <- app_assoc.
    + reflexivity.
Qed.

Lemma forallb_enumerate : forall (A : Type) (f : A -> bool) (l : list A),
  forallb (fun ip => f (snd ip)) (enumerate l) = forallb f l.
Proof.
  intros A f l. rewrite <- (enumerate_snd A l) at 2.
  generalize (enumerate l). intros m.
  induction m as [|x m IH]; cbn; [reflexivity|now rewrite IH].
Qed.

Lemma run_transcription_after_split_spec : forall env e model_size chunk_paths,
  chunk_paths <> [] ->
  fst (run_transcription_after_split env e model_size chunk_paths)
  = if forallb (fun p => negb (gui_escapes env e p)) chunk_paths
    then Transcript (strip (join_spaces
           (filter truthy (map (chunk_text env e model_size) chunk_paths))))
    else Critical.
Proof.
  intros env e size paths Hne. unfold run_transcription_after_split.
  destruct paths as [|p rest] eqn:E; [congruence|]. rewrite <- E.
  pose proof (gui_loop_spec env e size (enumerate paths) [] []) as Hl.
  rewrite (forallb_enumerate string
             (fun p => negb (gui_escapes env e p)) paths),
          enumerate_snd in Hl.
  destruct (gui_loop env e size (enumerate paths) ([], [])) as [[parts|] tr];
    cbn [fst] in Hl;
    destruct (forallb _ paths); try discriminate.
  - injection Hl as ->. reflexivity.
  - reflexivity.
Qed.

(** X6. The two programs produce the same transcript from the same
    chunks whenever no chunk makes the desktop loop raise (that is with
    Whisper always, and with Google when every chunk file can be
    opened) and the command-line program can print every text that is
    not empty. *)
Theorem gui_transcript_is_cli_transcript :
  forall env e model_size chunk_paths,
  forallb (fun p => negb (gui_escapes env e p)) chunk_paths = true ->
  forallb (fun p =>
             negb (truthy (chunk_text env e model_size p))
             || stdout_encodes env (chunk_text env e model_size p))
          chunk_paths = true ->
  fst (run_transcription_after_split env e model_size chunk_paths)
  = fst (main_after_split env e model_size chunk_paths).
Proof.
  intros env e size paths Hok Hprint.
  destruct paths as [|p rest] eqn:E; [reflexivity|]. rewrite <- E in *.
  assert (Hne : paths <> []) by (rewrite E; discriminate).
  rewrite (run_transcription_after_split_spec env e size paths Hne), Hok.
  assert (Hfilter :
    filter (appended env) (map (chunk_text env e size) paths)
    = filter truthy (map (chunk_text env e size) paths)).
  { clear E Hne Hok. induction paths as [|q l IH]; [reflexivity|].
    cbn [forallb] in Hprint. apply andb_prop in Hprint.
    destruct Hprint as [Hq Hl]. cbn [map filter]. rewrite (IH Hl).
    unfold appended.
    destruct (truthy (chunk_text env e size q)); cbn [negb orb andb] in *;
      [now rewrite Hq | reflexivity]. }
  unfold main_after_split. rewrite main_loop_spec, enumerate_snd, Hfilter.
  subst paths. reflexivity.
Qed.

Lemma gui_transcript_is_cli_transcript_witness :
  fst (run_transcription_after_split env_silent Google "base" five_chunks)
  = fst (main_after_split env_silent Google "base" five_chunks).
Proof.
  apply (gui_transcript_is_cli_transcript env_silent Google "base"
           five_chunks); reflexivity.
Defined.

Lemma truthy_join : forall parts,
  Forall (fun s => truthy s = true /\ trimmed s) parts ->
  truthy (strip (join_spaces parts))
  = match parts with [] => false | _ :: _ => true end.
Proof.
  intros parts H. rewrite (strip_join parts H).
  destruct parts as [|s rest]; [reflexivity|].
  destruct (trimmed_join (s :: rest) H ltac:(discriminate)) as [Ht _].
  exact Ht.
Qed.

Lemma texts_trimmed : forall env e model_size chunk_paths,
  Forall (fun s => truthy s = true /\ trimmed s)
    (filter truthy (map (chunk_text env e model_size) chunk_paths)).
Proof.
  intros env e size paths. apply Forall_forall. intros s Hs.
  apply filter_In in Hs. destruct Hs as [Hin Ht]. split; [exact Ht|].
  apply in_map_iff in Hin. destruct Hin as [p [<- _]].
  apply chunk_text_trimmed.
Qed.

Lemma some_text : forall env e model_size chunk_paths,
  truthy (strip (join_spaces
    (filter truthy (map (chunk_text env e model_size) chunk_paths))))
  = existsb (fun p => truthy (chunk_text env e model_size p)) chunk_paths.
Proof.
  intros env e size paths.
  rewrite (truthy_join _ (texts_trimmed env e size paths)).
  induction paths as [|p rest IH]; [reflexivity|].
  cbn [map filter existsb].
  destruct (truthy (chunk_text env e size p)); [reflexivity|exact IH].
Qed.

(** X7. The desktop run reports success, which is what enables the save
    button, exactly when no chunk makes the loop raise and at least one
    chunk gives a text that is not empty. *)
Theorem success_iff_text_and_no_escape :
  forall env e model_size chunk_paths,
  success (fst (run_transcription_after_split env e model_size chunk_paths))
  = forallb (fun p => negb (gui_escapes env e p)) chunk_paths
    && existsb (fun p => truthy (chunk_text env e model_size p)) chunk_paths.
Proof.
  intros env e size paths.
  destruct paths as [|p rest] eqn:E; [reflexivity|]. rewrite <- E.
  assert (Hne : paths <> []) by (rewrite E; discriminate).
  rewrite (run_transcription_after_split_spec env e size paths Hne).
  destruct (forallb _ paths); [|reflexivity].
  cbn [success andb]. apply some_text.
Qed.

(** ** The order of the work *)

Lemma backend_calls_app : forall a b,
  backend_calls (a ++ b) = backend_calls a ++ backend_calls b.
Proof. intros a b. apply flat_map_app. Qed.

Lemma announced_app : forall a b,
  announced (a ++ b) = announced a ++ announced b.
Proof. intros a b. apply flat_map_app. Qed.

(** The events of one call of a per-chunk function. *)
Lemma transcribe_chunk_calls : forall ui env e model_size chunk_path,
  backend_calls (snd (transcribe_chunk ui env e model_size chunk_path))
  = filter (reached env e model_size) [chunk_path]
  /\ announced (snd (transcribe_chunk ui env e model_size chunk_path)) = [].
Proof.
  intros ui env e size p. unfold transcribe_chunk, reached. cbn [filter].
  destruct e.
  - unfold transcribe_chunk_whisper.
    destruct (whisper_available env); cbn [negb andb];
      [|split; reflexivity].
    destruct (load_model_ok env size p); [|split; reflexivity].
    destruct (whisper_transcribe env p); destruct ui; split; reflexivity.
  - unfold transcribe_chunk_google.
    destruct (audio_file_opens env p); [|split; reflexivity].
    destruct (google env p); destruct ui; split; reflexivity.
Qed.

Lemma main_chunk_events_calls : forall env e model_size ip,
  backend_calls (main_chunk_events env e model_size ip)
  = filter (reached env e model_size) [snd ip]
  /\ announced (main_chunk_events env e model_size ip) = [fst ip].
Proof.
  intros env e size ip. unfold main_chunk_events.
  destruct (transcribe_chunk_calls CLI env e size (snd ip)) as [Hb Ha].
  destruct (transcribe_chunk CLI env e size (snd ip)) as [r ev].
  cbn [snd] in Hb, Ha.
  change (Log (LProcessingChunk (fst ip)) :: ev ++ ?x)
    with ([Log (LProcessingChunk (fst ip))] ++ ev ++ x).
  rewrite !backend_calls_app, !announced_app, Hb, Ha.
  split; [now rewrite app_nil_r|].
  destruct r as [text|];
    [destruct (truthy text); [destruct (stdout_encodes env text)|]|];
    reflexivity.
Qed.

Lemma combine_seq_fst : forall (A : Type) (l : list A) s,
  map fst (combine (seq s (List.length l)) l) = seq s (List.length l).
Proof.
  intros A l. induction l as [|x l IH]; intros s; [reflexivity|].
  cbn. now rewrite IH.
Qed.

Lemma main_events_calls : forall env e model_size l,
  announced (flat_map (main_chunk_events env e model_size) l) = map fst l
  /\ backend_calls (flat_map (main_chunk_events env e model_size) l)
     = filter (reached env e model_size) (map snd l).
Proof.
  intros env e size l.
  induction l as [|ip l [IHa IHb]]; [split; reflexivity|].
  cbn [flat_map map]. rewrite announced_app, backend_calls_app.
  destruct (main_chunk_events_calls env e size ip) as [-> ->].
  rewrite IHa, IHb. split; [reflexivity|].
  cbn [filter]. destruct (reached env e size (snd ip)); reflexivity.
Qed.

(** X8. The command-line program announces every chunk, in order, and
    calls the transcription itself on exactly the chunks for which it is
    reached (the model loads, or the file opens), in the order of the
    chunks: a chunk that fails holds up none of the later ones. *)
Theorem main_processes_every_chunk :
  forall env e model_size chunk_paths,
  announced (snd (main_after_split env e model_size chunk_paths))
  = seq 0 (List.length chunk_paths)
  /\ backend_calls (snd (main_after_split env e model_size chunk_paths))
     = filter (reached env e model_size) chunk_paths.
Proof.
  intros env e size paths.
  destruct paths as [|p rest] eqn:E; [split; reflexivity|]. rewrite <- E.
  assert (Hne : paths <> []) by (rewrite E; discriminate).
  rewrite (main_after_split_spec env e size paths Hne). cbn [snd].
  destruct (main_events_calls env e size (enumerate paths)) as [-> ->].
  rewrite enumerate_snd. unfold enumerate. rewrite combine_seq_fst.
  split; reflexivity.
Qed.

(** The desktop loop, turn by turn. *)
Lemma gui_step_calls : forall env e model_size parts tr ip,
  announced (snd (gui_step env e model_size (parts, tr) ip))
  = announced tr ++ [fst ip]
  /\ backend_calls (snd (gui_step env e model_size (parts, tr) ip))
     = backend_calls tr ++ filter (reached env e model_size) [snd ip].
Proof.
  intros env e size parts tr [i p]. unfold gui_step. cbn [fst snd].
  destruct e.
  - destruct (whisper_available env) eqn:Hav; cbn [negb].
    + destruct (transcribe_chunk_calls GUI env Whisper size p) as [Hb Ha].
      cbn [transcribe_chunk] in Hb, Ha.
      destruct (transcribe_chunk_whisper GUI env p size) as [r ev].
      cbn [snd] in Hb, Ha.
      destruct r; cbn [snd];
        change (Log (LProcessingChunk i) :: ev)
          with ([Log (LProcessingChunk i)] ++ ev);
        rewrite !announced_app, !backend_calls_app, Ha, Hb;
        split; reflexivity.
    + cbn [snd]. rewrite announced_app, backend_calls_app.
      unfold reached. rewrite Hav. split; reflexivity.
  - destruct (transcribe_chunk_calls GUI env Google size p) as [Hb Ha].
    cbn [transcribe_chunk] in Hb, Ha.
    destruct (transcribe_chunk_google GUI env p) as [r ev].
    cbn [snd] in Hb, Ha.
    destruct r; cbn [snd];
      change (Log (LProcessingChunk i) :: ev)
        with ([Log (LProcessingChunk i)] ++ ev);
      rewrite !announced_app, !backend_calls_app, Ha, Hb;
      split; reflexivity.
Qed.

Lemma gui_loop_calls : forall env e model_size l parts tr,
  let done := until_first (fun ip => gui_escapes env e (snd ip)) l in
  announced (snd (gui_loop env e model_size l (parts, tr)))
  = announced tr ++ map fst done
  /\ backend_calls (snd (gui_loop env e model_size l (parts, tr)))
     = backend_calls tr ++ filter (reached env e model_size) (map snd done).
Proof.
  intros env e size l. induction l as [|ip rest IH]; intros parts tr.
  - cbn. now rewrite !app_nil_r.
  - cbn [gui_loop until_first].
    pose proof (gui_step_spec env e size parts tr ip) as Hs.
    destruct (gui_step_calls env e size parts tr ip) as [Ha Hb].
    destruct (gui_step env e size (parts, tr) ip) as [[parts'|] tr'];
      cbn [fst snd] in Hs, Ha, Hb;
      destruct (gui_escapes env e (snd ip)); try discriminate.
    + destruct (IH parts' tr') as [IHa IHb]. cbn zeta in IHa, IHb.
      rewrite IHa, IHb, Ha, Hb. cbn [map filter].
      rewrite <- !app_assoc. split; [reflexivity|].
      f_equal. destruct (reached env e size (snd ip)); reflexivity.
    + cbn [snd map]. split; assumption.
Qed.

Lemma until_first_combine : forall (A : Type) (stop : A -> bool) l s,
  map snd (until_first (fun ip => stop (snd ip))
             (combine (seq s (List.length l)) l))
  = until_first stop l
  /\ map fst (until_first (fun ip => stop (snd ip))
                (combine (seq s (List.length l)) l))
     = seq s (List.length (until_first stop l)).
Proof.
  intros A stop l. induction l as [|x l IH]; intros s; [split; reflexivity|].
  cbn [List.length seq combine until_first snd].
  destruct (stop x); [split; reflexivity|].
  destruct (IH (S s)) as [IH1 IH2]. cbn [map fst snd List.length seq].
  rewrite IH1, IH2. split; reflexivity.
Qed.

(** X9. The desktop program stops at the first chunk that makes its
    loop raise: it announces the chunks up to that one and no other,
    calls the transcription itself on those of them for which it is
    reached, and then reports the critical error. Without such a chunk
    it goes through them all. *)
Theorem gui_stops_at_first_escape :
  forall env e model_size chunk_paths,
  let r := run_transcription_after_split env e model_size chunk_paths in
  let done := until_first (gui_escapes env e) chunk_paths in
  announced (snd r) = seq 0 (List.length done)
  /\ backend_calls (snd r) = filter (reached env e model_size) done
  /\ (existsb (gui_escapes env e) chunk_paths = true -> fst r = Critical)
  /\ (existsb (gui_escapes env e) chunk_paths = false ->
      done = chunk_paths).
Proof.
  intros env e size paths r done. subst r done.
  assert (Hdone : existsb (gui_escapes env e) paths = false ->
                  until_first (gui_escapes env e) paths = paths).
  { clear. induction paths as [|p rest IH]; [reflexivity|].
    cbn. destruct (gui_escapes env e p); [discriminate|].
    intros H. now rewrite IH. }
  assert (Hall : forallb (fun p => negb (gui_escapes env e p)) paths
                 = negb (existsb (gui_escapes env e) paths)).
  { clear. induction paths as [|p rest IH]; [reflexivity|].
    cbn. rewrite IH. now destruct (gui_escapes env e p). }
  destruct paths as [|p rest] eqn:E.
  { repeat split; try reflexivity. discriminate. }
  rewrite <- E in *.
  assert (Hne : paths <> []) by (rewrite E; discriminate).
  pose proof (run_transcription_after_split_spec env e size paths Hne) as Hf.
  rewrite Hall in Hf.
  destruct (gui_loop_calls env e size (enumerate paths) [] []) as [Ha Hb].
  destruct (until_first_combine string (gui_escapes env e) paths 0)
    as [U1 U2].
  fold (enumerate paths) in U1, U2. rewrite U1 in Hb. rewrite U2 in Ha.
  cbn [announced backend_calls flat_map app] in Ha, Hb.
  assert (Htr : announced
            (snd (run_transcription_after_split env e size paths))
            = announced (snd (gui_loop env e size (enumerate paths) ([], [])))
          /\ backend_calls
               (snd (run_transcription_after_split env e size paths))
             = backend_calls
                 (snd (gui_loop env e size (enumerate paths) ([], [])))).
  { clear. unfold run_transcription_after_split.
    destruct paths as [|q rest']; [split; reflexivity|].
    destruct (gui_loop env e size (enumerate (q :: rest')) ([], []))
      as [[parts|] tr]; cbn [snd]; [split; reflexivity|].
    rewrite announced_app, backend_calls_app. cbn.
    now rewrite !app_nil_r. }
  destruct Htr as [-> ->]. repeat split; try assumption.
  intros Hex. rewrite Hex in Hf. exact Hf.
Qed.

Lemma gui_stops_at_first_escape_witness :
  let r := run_transcription_after_split env_example Google "base"
             five_chunks in
  announced (snd r) = [0; 1; 2; 3]%nat
  /\ backend_calls (snd r)
     = ["chunk_0.wav"; "chunk_1.wav"; "chunk_2.wav"]%string
  /\ fst r = Critical.
Proof.
  destruct (gui_stops_at_first_escape env_example Google "base" five_chunks)
    as [Ha [Hb [Hc _]]].
  split; [exact Ha|]. split; [exact Hb|]. apply Hc. reflexivity.
Defined.

(** * Further properties: the download and the saved file *)

Lemma endswith_app : forall s t, endswith (s ++ t) t = true.
Proof.
  intros s t. induction s as [|c s IH]; cbn [append].
  - destruct t; cbn [endswith]; rewrite String.eqb_refl; reflexivity.
  - cbn [endswith]. rewrite IH. apply orb_true_r.
Qed.

Lemma endswith_app_l : forall pre s t,
  endswith s t = true -> endswith (pre ++ s) t = true.
Proof.
  intros pre s t H. induction pre as [|c pre IH]; cbn [append].
  - exact H.
  - cbn [endswith]. rewrite IH. apply orb_true_r.
Qed.

Lemma endswith_wav_truthy : forall p,
  endswith p ".wav"%string = true -> truthy p = true.
Proof. intros [|c p] H; [discriminate H|reflexivity]. Qed.

(** X10. [download_audio] returns a path only when [yt-dlp] ran to its
    end without error. The path then names a WAV file and is not empty,
    so that the callers' test [if not audio_file_path] takes it for a
    download; it is the expected file, which exists, or a file listed in
    the temporary directory whose name starts with [downloaded_audio].
    [os.path.join] is any function whose result ends with its last
    component. *)
Theorem download_audio_returns_wav :
  forall (path_join : string -> string -> string) env youtube_url temp_dir p,
  (forall a b, exists pre, path_join a b = (pre ++ b)%string) ->
  download_audio path_join env youtube_url temp_dir = Some p ->
  run_ytdlp env
    (ytdlp_command
       (path_join temp_dir "downloaded_audio" ++ ".%(ext)s")%string
       youtube_url) = YtCompleted
  /\ endswith p ".wav"%string = true
  /\ truthy p = true
  /\ ((p = (path_join temp_dir "downloaded_audio" ++ ".wav")%string
       /\ path_exists env p = true)
      \/ exists files f,
           listdir env temp_dir = Some files /\ In f files
           /\ String.prefix "downloaded_audio"%string f = true
           /\ p = path_join temp_dir f).
Proof.
  intros path_join env url temp p Hjoin H. unfold download_audio in H.
  destruct (run_ytdlp env _) eqn:Hrun; try discriminate.
  split; [reflexivity|].
  assert (Hgoal : endswith p ".wav"%string = true
            /\ ((p = (path_join temp "downloaded_audio" ++ ".wav")%string
                 /\ path_exists env p = true)
                \/ exists files f,
                     listdir env temp = Some files /\ In f files
                     /\ String.prefix "downloaded_audio"%string f = true
                     /\ p = path_join temp f)).
  { destruct (path_exists env _) eqn:Hex.
    - injection H as <-. split; [apply endswith_app|]. left. now split.
    - destruct (listdir env temp) as [files|] eqn:Hls; [|discriminate].
      destruct (filter is_downloaded_wav files) as [|f fs] eqn:Hf;
        [discriminate|].
      injection H as <-.
      assert (Hin : In f (filter is_downloaded_wav files))
        by (rewrite Hf; now left).
      apply filter_In in Hin. destruct Hin as [Hin Hwav].
      unfold is_downloaded_wav in Hwav. apply andb_prop in Hwav.
      destruct Hwav as [Hpre Hsuf]. split.
      + destruct (Hjoin temp f) as [pre ->]. now apply endswith_app_l.
      + right. exists files, f. repeat split; assumption. }
  destruct Hgoal as [Hw Hor]. repeat split; try assumption.
  now apply endswith_wav_truthy.
Qed.

Lemma string_app_assoc : forall a b c : string,
  ((a ++ b) ++ c = a ++ b ++ c)%string.
Proof.
  induction a as [|x a IH]; intros b c; cbn; [reflexivity|].
  now rewrite IH.
Qed.

Lemma posix_join_suffix : forall a b,
  exists pre, posix_join a b = (pre ++ b)%string.
Proof.
  intros a b. unfold posix_join.
  destruct (String.prefix "/"%string b); [exists EmptyString; reflexivity|].
  destruct (String.eqb a ""%string || endswith a "/"%string).
  - exists a. reflexivity.
  - exists (a ++ "/")%string. symmetry. apply string_app_assoc.
Qed.

(** The converted file has another name than the expected one. *)
Lemma download_audio_returns_wav_witness :
  download_audio posix_join download_example
    "https://youtu.be/x"%string "/tmp/yt"%string
    = Some "/tmp/yt/downloaded_audio.f140.wav"%string
  /\ endswith "/tmp/yt/downloaded_audio.f140.wav"%string ".wav"%string
     = true.
Proof.
  split; [reflexivity|].
  apply (download_audio_returns_wav posix_join download_example
           "https://youtu.be/x"%string "/tmp/yt"%string
           "/tmp/yt/downloaded_audio.f140.wav"%string posix_join_suffix).
  reflexivity.
Defined.

(** ** What [save_transcript] writes *)

Lemma widget_run_app : forall a b content,
  widget_run (a ++ b) content = widget_run b (widget_run a content).
Proof. intros a b content. apply fold_left_app. Qed.

Lemma widget_run_appends : forall msgs content,
  exists tail, widget_run (map WAppend msgs) content = (content ++ tail)%string.
Proof.
  induction msgs as [|m msgs IH]; intros content.
  - exists EmptyString. cbn. clear.
    induction content as [|c s IH]; cbn; [reflexivity|now rewrite <- IH].
  - cbn [map widget_run fold_left widget_step].
    destruct (IH (content ++ m ++ newline)%string) as [tail Ht].
    unfold widget_run in Ht. rewrite Ht.
    exists (m ++ newline ++ tail)%string.
    now rewrite !string_app_assoc.
Qed.

Lemma rstrip_keeps : forall x y,
  rstrip x = x -> truthy x = true ->
  exists r, rstrip (x ++ y) = (x ++ r)%string.
Proof.
  intros x y Hx Ht. rewrite rstrip_app. destruct (rstrip y) as [|c r].
  - exists EmptyString. rewrite Hx. clear.
    induction x as [|c s IH]; cbn; [reflexivity|now rewrite <- IH].
  - eexists. reflexivity.
Qed.

(** X11. After a successful run, [save_transcript] does not write the
    transcript alone: the file starts with the transcript and goes on
    with the status line that the run logs after showing it (and with
    the lines of the cleanup), whatever was in the widget before. *)
Theorem saved_file_is_not_the_transcript :
  forall env e model_size chunk_paths final_transcript earlier temp_dir
         temp_dir_exists rmtree_error content,
  fst (run_transcription_after_split env e model_size chunk_paths)
    = Transcript final_transcript ->
  truthy final_transcript = true ->
  let saved :=
    save_transcript
      (widget_after_run earlier final_transcript temp_dir temp_dir_exists
         rmtree_error content) in
  (exists rest,
     saved = (final_transcript ++ newline
              ++ "Final transcript displayed above." ++ rest)%string)
  /\ saved <> final_transcript.
Proof.
  intros env e size paths final earlier temp ex err content Hrun Htruthy saved.
  assert (Htrim : trimmed final).
  { unfold run_transcription_after_split in Hrun.
    destruct paths as [|p rest]; [discriminate|].
    destruct (gui_loop env e size (enumerate (p :: rest)) ([], []))
      as [[parts|] tr]; [|discriminate].
    cbn [fst] in Hrun. injection Hrun as <-. apply strip_trimmed. }
  destruct Htrim as [Hl Hr].
  set (line := (newline ++ "Final transcript displayed above.")%string).
  assert (Hsaved : exists rest, saved = (final ++ line ++ rest)%string).
  { subst saved. unfold save_transcript, widget_after_run.
    rewrite !widget_run_app. unfold display_ops. rewrite Htruthy.
    match goal with
    | |- context [widget_run (map WAppend ?m) ?c] =>
        destruct (widget_run_appends m c) as [tail ->]
    end.
    fold line.
    cbn [widget_run fold_left widget_step append].
    rewrite !string_app_assoc.
    unfold strip.
    destruct final as [|c final']; [discriminate|].
    assert (Hc : is_space c = false) by (now apply lstrip_fixed_head in Hl).
    change ((String c final' ++ line ++ newline ++ tail ++ newline)%string)
      with (String c (final' ++ line ++ newline ++ tail ++ newline)).
    rewrite (lstrip_head c _ Hc).
    change (String c (final' ++ line ++ newline ++ tail ++ newline))
      with ((String c final' ++ line ++ newline ++ tail ++ newline)%string).
    rewrite <- string_app_assoc.
    assert (Hx : rstrip (String c final' ++ line)
                 = (String c final' ++ line)%string).
    { rewrite rstrip_app. reflexivity. }
    destruct (rstrip_keeps (String c final' ++ line)
                (newline ++ tail ++ newline) Hx eq_refl) as [r ->].
    exists r. now rewrite string_app_assoc. }
  destruct Hsaved as [rest Hs]. split.
  - exists rest. rewrite Hs. unfold line. now rewrite string_app_assoc.
  - rewrite Hs. intros Heq.
    apply (f_equal String.length) in Heq.
    rewrite !string_length_app in Heq. cbn in Heq. lia.
Qed.

Lemma saved_file_is_not_the_transcript_witness :
  save_transcript
    (widget_after_run [WAppend "Starting transcription process..."]
       "good morning good morning good morning good morning good morning"
       "/tmp/youtube_gui_a1" true None "")
  <> "good morning good morning good morning good morning good morning"%string.
Proof.
  exact (proj2 (saved_file_is_not_the_transcript env_silent Google "base"
                  five_chunks
                  "good morning good morning good morning good morning good morning"
                  [WAppend "Starting transcription process..."]
                  "/tmp/youtube_gui_a1" true None "" eq_refl eq_refl)).
Defined.

(** ** Runs started from the window *)

Lemma transcribe_chunk_available : forall ui env e model_size chunk_path,
  (e = Whisper -> whisper_available env = true) ->
  unavailable_lines (snd (transcribe_chunk ui env e model_size chunk_path))
  = [].
Proof.
  intros ui env e size p Hav. unfold transcribe_chunk. destruct e.
  - unfold transcribe_chunk_whisper. rewrite (Hav eq_refl). cbn [negb].
    destruct (load_model_ok env size p); [|reflexivity].
    destruct (whisper_transcribe env p); destruct ui; reflexivity.
  - unfold transcribe_chunk_google.
    destruct (audio_file_opens env p); [|reflexivity].
    destruct (google env p); destruct ui; reflexivity.
Qed.

Lemma gui_step_available : forall env e model_size parts tr ip,
  (e = Whisper -> whisper_available env = true) ->
  unavailable_lines (snd (gui_step env e model_size (parts, tr) ip))
  = unavailable_lines tr.
Proof.
  intros env e size parts tr [i p] Hav.
  pose proof (transcribe_chunk_available GUI env e size p Hav) as Hev.
  unfold gui_step, transcribe_chunk in *. destruct e.
  - rewrite (Hav eq_refl). cbn [negb].
    destruct (transcribe_chunk_whisper GUI env p size) as [r ev].
    cbn [snd] in Hev.
    destruct r; cbn [snd]; unfold unavailable_lines in *;
      rewrite filter_app; cbn [filter]; rewrite Hev; apply app_nil_r.
  - destruct (transcribe_chunk_google GUI env p) as [r ev].
    cbn [snd] in Hev.
    destruct r; cbn [snd]; unfold unavailable_lines in *;
      rewrite filter_app; cbn [filter]; rewrite Hev; apply app_nil_r.
Qed.

Lemma gui_loop_available : forall env e model_size l parts tr,
  (e = Whisper -> whisper_available env = true) ->
  unavailable_lines (snd (gui_loop env e model_size l (parts, tr)))
  = unavailable_lines tr.
Proof.
  intros env e size l. induction l as [|ip rest IH]; intros parts tr Hav.
  - reflexivity.
  - cbn [gui_loop].
    pose proof (gui_step_available env e size parts tr ip Hav) as Hs.
    destruct (gui_step env e size (parts, tr) ip) as [[parts'|] tr'];
      cbn [snd] in Hs.
    + now rewrite IH.
    + exact Hs.
Qed.

(** X12. A run that the window starts has passed its checks: the URL is
    not empty and has no white space around it, and with the Whisper
    engine the library is there and a model is chosen. Such a run never
    logs that Whisper is not installed: the test of the loop on
    [whisper_available] cannot fail in it. *)
Theorem started_run_has_its_engine :
  forall env url_entry e model_var url e' model_size chunk_paths,
  start_transcription_thread env url_entry e model_var
    = Some (url, e', model_size) ->
  truthy url = true /\ trimmed url
  /\ e' = e /\ model_size = model_var
  /\ (e = Whisper ->
      whisper_available env = true /\ model_size <> "N/A"%string)
  /\ unavailable_lines
       (snd (run_transcription_after_split env e' model_size chunk_paths))
     = [].
Proof.
  intros env url_entry e model_var url e' size paths H.
  unfold start_transcription_thread in H.
  destruct (truthy (strip url_entry)) eqn:Hurl; cbn [negb] in H;
    [|discriminate].
  assert (Hchecks : url = strip url_entry /\ e' = e /\ size = model_var
            /\ (e = Whisper ->
                whisper_available env = true /\ size <> "N/A"%string)).
  { destruct e.
    - destruct (whisper_available env); cbn [negb] in H; [|discriminate].
      destruct (String.eqb model_var "N/A") eqn:Hm; [discriminate|].
      injection H as <- <- <-. repeat split; try reflexivity.
      now apply String.eqb_neq.
    - injection H as <- <- <-. repeat split; try reflexivity; discriminate. }
  destruct Hchecks as [-> [-> [-> Hw]]].
  repeat split; try assumption; try apply strip_trimmed; try apply Hw;
    try assumption.
  unfold run_transcription_after_split.
  destruct paths as [|p rest]; [reflexivity|].
  pose proof (gui_loop_available env e model_var (enumerate (p :: rest))
                [] [] (fun He => proj1 (Hw He))) as Hl.
  destruct (gui_loop env e model_var (enumerate (p :: rest)) ([], []))
    as [[parts|] tr]; cbn [snd] in *; [exact Hl|].
  unfold unavailable_lines in *. rewrite filter_app, Hl. reflexivity.
Qed.

Lemma started_run_has_its_engine_witness :
  unavailable_lines
    (snd (run_transcription_after_split env_example Whisper "base"
            five_chunks)) = [].
Proof.
  apply (started_run_has_its_engine env_example
           " https://youtu.be/x "%string Whisper "base"%string
           "https://youtu.be/x"%string Whisper "base"%string five_chunks).
  reflexivity.
Defined.

(** ** The transcript of the command-line program *)

(** X13. The final text of [main] is the join with single spaces, in
    the order of the chunks, of the per-chunk texts that are not empty
    and that its standard output can print; with a standard output that
    prints every text, of all the texts that are not empty. *)
Theorem main_transcript_is_join_of_printed_texts :
  forall env e model_size chunk_paths,
  chunk_paths <> [] ->
  fst (main_after_split env e model_size chunk_paths)
  = Transcript (join_spaces
      (filter (fun t => truthy t && stdout_encodes env t)
         (map (chunk_text env e model_size) chunk_paths)))
  /\ ((forall t, stdout_encodes env t = true) ->
      fst (main_after_split env e model_size chunk_paths)
      = Transcript (join_spaces
          (filter truthy (map (chunk_text env e model_size) chunk_paths)))).
Proof.
  intros env e size paths Hne.
  rewrite (main_after_split_spec env e size paths Hne). cbn [fst].
  split; [reflexivity|]. intros Hall. do 2 f_equal.
  apply filter_ext. intros t. unfold appended. rewrite Hall.
  apply andb_true_r.
Qed.

Lemma main_transcript_is_join_of_printed_texts_witness :
  fst (main_after_split env_example Google "base" five_chunks)
  = Transcript "good morning good morning good morning good morning".
Proof.
  refine (proj2 (main_transcript_is_join_of_printed_texts env_example Google
                   "base" five_chunks _) (fun _ => eq_refl)).
  discriminate.
Defined.


